(** * ss2csv: scoreboard snapshot to CSV

    A shallow embedding of [ss2csv.py].  The script reads [match.html],
    walks the parsed tree for the player blocks, builds one row of text
    fields per block and writes the rows, after a fixed header, to a CSV
    file whose name is chosen so that no existing file is reused.

    Python's [str] is a sequence of Unicode code points: a character is
    an [N] and a string a [list N].  The filesystem is a finite map from
    the paths the script spells to the text stored there; both files are
    opened as UTF-8 text, and of the encoding only its one failure, a
    character that cannot be encoded, is modelled ([script_io]).  The
    HTML parser is a parameter of the script; the tree it returns, the
    lookups on it and the CSV writer and reader are modelled after the
    libraries the script calls. *)

From Stdlib Require Import NArith List Ascii String Lia.
From stdpp Require Import base decidable option list gmap sets strings pretty.

#[local] Set Warnings "-clear-no-such-hyp".

Local Open Scope N_scope.

(** ** Text *)

Abbreviation char := N (only parsing).
Abbreviation str := (list N) (only parsing).

(** An ASCII literal of the source, as code points. *)
Definition py (s : string) : str :=
  map N_of_ascii (list_ascii_of_string s).

Arguments py : simpl never.

(** [f'{i}'] for an [int] that is not negative: its decimal digits. *)
Definition format_int (i : N) : str := py (pretty i).

(** ** The filesystem and [next_available_filename] *)

Definition os_path_exists (fs : gmap str str) (p : str) : bool :=
  bool_decide (is_Some (fs !! p)).

Definition default_base : str := py "match_stats.csv".

(** [f'match_stats_{i}.csv'] *)
Definition candidate (i : N) : str :=
  py "match_stats_" ++ format_int i ++ py ".csv".

(** The [while True] loop of the source, entered with counter [i]; [fuel]
    bounds the number of iterations and [None] means it ran out. *)
Fixpoint probe (fs : gmap str str) (fuel : nat) (i : N) : option str :=
  match fuel with
  | O => None
  | S fuel' =>
      if negb (os_path_exists fs (candidate i)) then Some (candidate i)
      else probe fs fuel' (i + 1)
  end.

Definition next_available_filename_fuel
    (fuel : nat) (fs : gmap str str) (base : str) : option str :=
  if negb (os_path_exists fs base) then Some base
  else probe fs fuel 1.

(** A filesystem of [n] paths leaves one of the first [n + 1] candidates
    free, so [S (size fs)] iterations always reach the [return]
    ([next_available_filename_fuel_enough] below): the fallback arm is
    never taken. *)
Definition next_available_filename (fs : gmap str str) (base : str) : str :=
  match next_available_filename_fuel (S (size fs)) fs base with
  | Some name => name
  | None => base
  end.

Arguments next_available_filename : simpl never.

(** ** Whitespace and [str.strip()] *)

(** [str.isspace] on one character: the code points Python counts as
    white space. *)
Definition isspace (c : char) : bool :=
  ((9 <=? c) && (c <=? 13)) || ((28 <=? c) && (c <=? 32))
  || (c =? 133) || (c =? 160) || (c =? 5760)
  || ((8192 <=? c) && (c <=? 8202))
  || (c =? 8232) || (c =? 8233) || (c =? 8239) || (c =? 8287)
  || (c =? 12288).

Fixpoint lstrip (s : str) : str :=
  match s with
  | c :: s' => if isspace c then lstrip s' else s
  | [] => []
  end.

Definition rstrip (s : str) : str := rev (lstrip (rev s)).

Definition strip (s : str) : str := rstrip (lstrip s).

(** ** The parsed document

    The tree BeautifulSoup hands back: text nodes, the strings [.text]
    leaves out (comments, declarations and the like) and tags with their
    name, the tokens of their [class] attribute and their contents. *)

#[warnings="-register-all"]
Inductive node : Type :=
  | NavigableString (s : str)
  | Comment (s : str)
  | Tag (name : str) (class_ : list str) (contents : list node).

(** [.text]: the text nodes below, concatenated in document order. *)
Fixpoint text (n : node) : str :=
  match n with
  | NavigableString s => s
  | Comment _ => []
  | Tag _ _ contents => flat_map text contents
  end.

(** Everything below a node, in document order. *)
Fixpoint descendants (n : node) : list node :=
  match n with
  | Tag _ _ contents => flat_map (fun c => c :: descendants c) contents
  | _ => []
  end.

(** Does a node answer to [(name, class_=cls)]?  Without [class_] the
    name alone decides. *)
Definition matches (name : str) (cls : option str) (n : node) : bool :=
  match n with
  | Tag nm cl _ =>
      bool_decide (nm = name)
      && match cls with
         | Some k => bool_decide (k ∈ cl)
         | None => true
         end
  | _ => false
  end.

Definition find_all (n : node) (name : str) (cls : option str) : list node :=
  List.filter (matches name cls) (descendants n).

(** [find] is the first hit of [find_all], or Python's [None]. *)
Definition find (n : node) (name : str) (cls : option str) : option node :=
  head (find_all n name cls).

(** ** Python values that may be [None]

    A lookup result is [Some tag] or Python's [None].  A tag is always
    true in a condition; calling a method on [None] raises, which the
    outer [option] records. *)

Definition truthy (o : option node) : bool :=
  match o with Some _ => true | None => false end.

Definition method_find
    (o : option node) (name : str) (cls : option str) : option (option node) :=
  t ← o; Some (find t name cls).

Definition get_text (o : option node) : option str :=
  t ← o; Some (text t).

(** ** The extractor: one row per player block *)

Definition username (item : node) : option node :=
  find item (py "span") (Some (py "trn-ign__username")).

Definition discrim (item : node) : option node :=
  find item (py "span") (Some (py "trn-ign__discriminator")).

Definition rank (item : node) : option node :=
  find item (py "div") (Some (py "rank")).

(** [rank.find('span').text.strip() if rank and rank.find('span') else ''] *)
Definition rank_val (item : node) : option str :=
  cond ← (if truthy (rank item) then method_find (rank item) (py "span") None
          else Some (rank item));
  if truthy cond then
    label ← method_find (rank item) (py "span") None;
    t ← get_text label;
    Some (strip t)
  else Some [].

(** [f'{username.text.strip()}{discrim.text.strip()}' if username and discrim else ''] *)
Definition player (item : node) : option str :=
  let cond := if truthy (username item) then discrim item else username item in
  if truthy cond then
    u ← get_text (username item);
    d ← get_text (discrim item);
    Some (strip u ++ strip d)
  else Some [].

(** [[v.text.strip() for v in item.find_all('div', class_='value')]] *)
Definition stats (item : node) : list str :=
  map (fun v => strip (text v)) (find_all item (py "div") (Some (py "value"))).

(** The body of the [for] loop; [rank_val] is computed before [player],
    as in the source. *)
Definition row (item : node) : option (list str) :=
  r ← rank_val item;
  p ← player item;
  Some ([p; r] ++ stats item).

Definition items (soup : node) : list node :=
  find_all soup (py "div") (Some (py "st-content__item")).

Definition rows (soup : node) : option (list (list str)) :=
  mapM row (items soup).

(** ** [csv.writer], dialect [excel]

    The writer and the reader are not code of the script: they follow
    the standard library's [csv] module for the default dialect, with the
    comma as delimiter, the double quote as quote character, quotes
    doubled inside a quoted field, minimal quoting, no escape character
    and CR LF as line terminator. *)

Definition delimiter : char := 44.
Definition quotechar : char := 34.
Definition CR : char := 13.
Definition LF : char := 10.
Definition lineterminator : str := [CR; LF].

(** A character that forces the field into quotes. *)
Definition special (c : char) : bool :=
  (c =? delimiter) || (c =? quotechar) || bool_decide (c ∈ lineterminator).

(** The field as copied into the record: every quote character doubled. *)
Definition escape_field (field : str) : str :=
  flat_map (fun c => if c =? quotechar then [quotechar; c] else [c]) field.

Definition join_append (field : str) (quoted : bool) : str :=
  if quoted || existsb special field
  then [quotechar] ++ escape_field field ++ [quotechar]
  else escape_field field.

(** The fields of one record, a delimiter before each but the first. *)
Fixpoint join_fields (fields : list str) : str :=
  match fields with
  | [] => []
  | [f] => join_append f false
  | f :: fs => join_append f false ++ [delimiter] ++ join_fields fs
  end.

(** [writer.writerow(row)]: the text added to the file.  A record that
    came out empty although it has a field (a single empty string) is
    written as a pair of quotes. *)
Definition writerow (fields : list str) : str :=
  let rec := join_fields fields in
  (if bool_decide (fields ≠ []) && bool_decide (rec = [])
   then join_append [] true else rec)
  ++ lineterminator.

Definition writerows (records : list (list str)) : str :=
  flat_map writerow records.

(** ** [csv.reader], dialect [excel]

    The reader of the standard library, with its field size limit. *)

Inductive ParserState : Type :=
  | START_RECORD
  | START_FIELD
  | IN_FIELD
  | IN_QUOTED_FIELD
  | QUOTE_IN_QUOTED_FIELD
  | EAT_CRNL.

Global Instance ParserState_eq_dec : EqDecision ParserState.
Proof. solve_decision. Defined.

Record ReaderObj : Type := mkReader {
  fields : list str;   (* the fields of the record read so far *)
  field : str;         (* the field being read *)
  state : ParserState
}.

Definition parse_reset : ReaderObj := mkReader [] [] START_RECORD.

Definition parse_save_field (self : ReaderObj) (st : ParserState) : ReaderObj :=
  mkReader (fields self ++ [field self]) [] st.

(** [csv.field_size_limit()]: the longest field the reader accepts,
    131072 characters unless the caller has changed it. *)
Definition field_limit : N := 131072.

(** A character joins the field only while the field is shorter than the
    limit; otherwise the reader raises (field larger than field limit). *)
Definition parse_add_char (limit : N) (self : ReaderObj) (c : char)
    (st : ParserState) : option ReaderObj :=
  if N.of_nat (length (field self)) <? limit
  then Some (mkReader (fields self) (field self ++ [c]) st)
  else None.

Arguments parse_add_char : simpl never.

Definition set_state (self : ReaderObj) (st : ParserState) : ReaderObj :=
  mkReader (fields self) (field self) st.

Definition is_newline (c : char) : bool := (c =? LF) || (c =? CR).

(** One step of the reader on a character, or on the end of a line
    ([None]).  The result is [None] on the reader's error. *)
Definition parse_process_char (limit : N) (self : ReaderObj)
    (c : option char) : option ReaderObj :=
  let start_field :=
    match c with
    | None => Some (parse_save_field self START_RECORD)
    | Some c =>
        if is_newline c then Some (parse_save_field self EAT_CRNL)
        else if c =? quotechar then Some (set_state self IN_QUOTED_FIELD)
        else if c =? delimiter then Some (parse_save_field self START_FIELD)
        else parse_add_char limit self c IN_FIELD
    end in
  match state self with
  | START_RECORD =>
      match c with
      | None => Some self
      | Some c' =>
          if is_newline c' then Some (set_state self EAT_CRNL)
          else start_field
      end
  | START_FIELD => start_field
  | IN_FIELD =>
      match c with
      | None => Some (parse_save_field self START_RECORD)
      | Some c =>
          if is_newline c then Some (parse_save_field self EAT_CRNL)
          else if c =? delimiter then Some (parse_save_field self START_FIELD)
          else parse_add_char limit self c IN_FIELD
      end
  | IN_QUOTED_FIELD =>
      match c with
      | None => Some self
      | Some c =>
          if c =? quotechar then Some (set_state self QUOTE_IN_QUOTED_FIELD)
          else parse_add_char limit self c IN_QUOTED_FIELD
      end
  | QUOTE_IN_QUOTED_FIELD =>
      match c with
      | None => Some (parse_save_field self START_RECORD)
      | Some c =>
          if c =? quotechar then parse_add_char limit self c IN_QUOTED_FIELD
          else if c =? delimiter then Some (parse_save_field self START_FIELD)
          else if is_newline c then Some (parse_save_field self EAT_CRNL)
          else parse_add_char limit self c IN_FIELD
      end
  | EAT_CRNL =>
      match c with
      | None => Some (set_state self START_RECORD)
      | Some c => if is_newline c then Some self else None
      end
  end.

(** The characters of one line, then its end. *)
Fixpoint parse_line (limit : N) (self : ReaderObj) (line : str)
    : option ReaderObj :=
  match line with
  | [] => parse_process_char limit self None
  | c :: line' =>
      self' ← parse_process_char limit self (Some c);
      parse_line limit self' line'
  end.

(** No line is left: a field that was begun, or an open quoted field,
    still ends a last record. *)
Definition end_of_input (self : ReaderObj) : option (list (list str)) :=
  if negb (bool_decide (field self = []))
     || bool_decide (state self = IN_QUOTED_FIELD)
  then Some [fields (parse_save_field self START_RECORD)]
  else Some [].

(** All the records of an iterable of lines: a record ends with the line
    that brings the reader back to [START_RECORD]; input that stops in
    the middle of a field still gives that record. *)
Fixpoint reader_from (limit : N) (self : ReaderObj) (lines : list str)
    : option (list (list str)) :=
  match lines with
  | [] => end_of_input self
  | line :: lines' =>
      self' ← parse_line limit self line;
      if bool_decide (state self' = START_RECORD)
      then rest ← reader_from limit parse_reset lines';
           Some (fields self' :: rest)
      else reader_from limit self' lines'
  end.

(** The lines of a text file opened with [newline='']: a line ends after
    LF, after CR LF, or after a CR that no LF follows, and keeps its
    ending.  [cur] is the line read so far. *)
Fixpoint readlines (cur : str) (s : str) : list str :=
  match s with
  | [] => if bool_decide (cur = []) then [] else [cur]
  | c :: s' =>
      if c =? LF then (cur ++ [c]) :: readlines [] s'
      else if c =? CR then
        match s' with
        | c' :: s'' =>
            if c' =? LF then (cur ++ [c; c']) :: readlines [] s''
            else (cur ++ [c]) :: readlines [] s'
        | [] => [cur ++ [c]]
        end
      else readlines (cur ++ [c]) s'
  end.

(** [list(csv.reader(f))] for a file holding [s], under a given field
    size limit and under the default one. *)
Definition reader_limit (limit : N) (s : str) : option (list (list str)) :=
  reader_from limit parse_reset (readlines [] s).

Definition reader (s : str) : option (list (list str)) :=
  reader_limit field_limit s.

(** *** The reader as one pass over the text

    The same reader, fed the characters of the text one by one and told
    of each line end where [readlines] cuts; [pending] says whether the
    current line already has a character.  [reader_of_feed] below shows
    that it reads what [reader] reads. *)

Fixpoint parse_chars (limit : N) (self : ReaderObj) (cur : str)
    : option ReaderObj :=
  match cur with
  | [] => Some self
  | c :: cur' =>
      self' ← parse_process_char limit self (Some c);
      parse_chars limit self' cur'
  end.

Definition ends_line (c : char) (s' : str) : bool :=
  (c =? LF)
  || ((c =? CR) && negb match s' with c' :: _ => c' =? LF | [] => false end).

Fixpoint feed (limit : N) (self : ReaderObj) (pending : bool) (s : str)
    : option (list (list str)) :=
  match s with
  | [] =>
      if pending then
        self' ← parse_process_char limit self None;
        if bool_decide (state self' = START_RECORD)
        then Some [fields self']
        else end_of_input self'
      else end_of_input self
  | c :: s' =>
      self' ← parse_process_char limit self (Some c);
      if ends_line c s' then
        self'' ← parse_process_char limit self' None;
        if bool_decide (state self'' = START_RECORD)
        then rest ← feed limit parse_reset false s';
             Some (fields self'' :: rest)
        else feed limit self'' false s'
      else feed limit self' true s'
  end.

(** The reader's state once the text of the field [f] has been read,
    with [done] the fields before it. *)
Definition after_field (done : list str) (f : str) (self : ReaderObj) : Prop :=
  fields self = done
  /\ ((state self = START_FIELD /\ f = [] /\ field self = [])
      \/ (state self = IN_FIELD /\ field self = f)
      \/ (state self = QUOTE_IN_QUOTED_FIELD /\ field self = f)).

(** ** The script *)

(** The header row; the tenth name ends in U+0394, GREEK CAPITAL LETTER
    DELTA. *)
Definition header : list str :=
  [py "player"; py "rank"; py "TRS"; py "ACS"; py "K"; py "D"; py "A";
   py "+/-"; py "K/D"; py "DD" ++ [916]; py "ADR"; py "HS%"; py "KAST";
   py "FK"; py "FD"; py "MK"].

(** What the [with open(csv_filename, 'w', ...)] block leaves in the
    file: the header, then one record per row. *)
Definition csv_text (rows : list (list str)) : str :=
  writerow header ++ writerows rows.

Arguments csv_text : simpl never.

(** The line printed at the end; the dotless i is U+0131 and the s with
    cedilla U+015F. *)
Definition report (csv_filename : str) (count : nat) : str :=
  csv_filename ++ py " dosyas" ++ [305] ++ py "na "
  ++ format_int (N.of_nat count)
  ++ py " oyuncu ba" ++ [351] ++ py "ar" ++ [305] ++ py "yla yaz" ++ [305]
  ++ py "ld" ++ [305] ++ py ".".

Arguments report : simpl never.

(** The writer: the block from [csv_filename = next_available_filename()]
    to the end of the [with]; it creates the file under the chosen name.
    This is the block when every record can be encoded; [script_io]
    below says what is left on disk when one cannot. *)
Definition write_csv (fs : gmap str str) (rows : list (list str))
    : gmap str str :=
  let csv_filename := next_available_filename fs default_base in
  <[csv_filename := csv_text rows]> fs.

Arguments write_csv : simpl never.

(** One run in the directory [fs].  [BeautifulSoup] is the parser, taken
    as given: it turns the text of [match.html] into the tree, or fails.
    The result is the directory after the run and the line printed, or
    [None] when the run dies on an exception.  The run described is the
    one whose text UTF-8 can encode; [script_io] below is the run with
    the encoding error and the file it leaves. *)
Definition script (BeautifulSoup : str -> option node) (fs : gmap str str)
    : option (gmap str str * str) :=
  f ← fs !! py "match.html";
  soup ← BeautifulSoup f;
  rows ← rows soup;
  Some (write_csv fs rows,
        report (next_available_filename fs default_base) (length rows)).

(** *** The run with its encoding errors

    The file is opened with [encoding='utf-8'], and [out.write] encodes
    each record as the writer hands it over: a character UTF-8 cannot
    encode, a lone surrogate, raises there.  (A [str] holds no code
    point above U+10FFFF.) *)

Definition encodable (c : char) : bool :=
  (c <? 55296) || ((57343 <? c) && (c <=? 1114111)).

(** What reaches the file of the records handed to [out.write] in turn,
    and whether all of them did: the first record that cannot be encoded
    raises, and neither it nor a later one is written; what was written
    before is flushed when the [with] block is left. *)
Fixpoint written (records : list str) : str * bool :=
  match records with
  | [] => ([], true)
  | r :: records' =>
      if forallb encodable r
      then let '(t, ok) := written records' in (r ++ t, ok)
      else ([], false)
  end.

(** One run and what it leaves behind: the directory after the run, and
    the line printed or [None] for an exception.  Nothing is touched
    before [open], which creates the file. *)
Definition script_io (BeautifulSoup : str -> option node)
    (fs : gmap str str) : gmap str str * option str :=
  match fs !! py "match.html" with
  | None => (fs, None)
  | Some f =>
      match BeautifulSoup f with
      | None => (fs, None)
      | Some soup =>
          match rows soup with
          | None => (fs, None)
          | Some rows =>
              let csv_filename := next_available_filename fs default_base in
              let '(t, ok) := written (writerow header :: (writerow <$> rows)) in
              (<[csv_filename := t]> fs,
               if ok then Some (report csv_filename (length rows)) else None)
          end
      end
  end.

(** [n] runs, one after the other, in the same directory. *)
Fixpoint runs (BeautifulSoup : str -> option node) (n : nat)
    (fs : gmap str str) : option (gmap str str) :=
  match n with
  | O => Some fs
  | S n' =>
      fs' ← runs BeautifulSoup n' fs;
      fst <$> script BeautifulSoup fs'
  end.

(** The name the [k]-th run (from 0) of a fresh directory picks. *)
Definition output_name (k : nat) : str :=
  match k with
  | O => default_base
  | S _ => candidate (N.of_nat k)
  end.

(** A directory that holds exactly the first [n] output names. *)
Definition busy_directory (n : nat) : gmap str str :=
  list_to_map ((fun k => (output_name k, [])) <$> seq 0 n).

(** The first line of a text, without its ending. *)
Fixpoint first_line (s : str) : str :=
  match s with
  | [] => []
  | c :: s' => if is_newline c then [] else c :: first_line s'
  end.

(** ** Sample documents

    The two scenarios of the specification: a full block, and a block
    with no discriminator, no rank and a single value cell. *)

Definition element (name : string) (cls : list string) (t : string) : node :=
  Tag (py name) (py <$> cls) [NavigableString (py t)].

Definition full_block : node :=
  Tag (py "div") [py "st-content__item"]
    ([element "span" ["trn-ign__username"] " Player";
      element "span" ["trn-ign__discriminator"] "#1234 ";
      Tag (py "div") [py "rank"]
        [Comment (py "tier"); element "span" [] "Gold"]]
     ++ ((fun t => element "div" ["value"] t)
           <$> ["10"; "20"; "3"; "1"; "2"; "0"; "1.5"; "90"; "85"; "50";
                "92"; "1"; "0"; "2"])).

Definition short_block : node :=
  Tag (py "div") [py "st-content__item"]
    [element "span" ["trn-ign__username"] "Player";
     element "div" ["value"] "5"].

(** A block whose value cells need quoting: a comma, a quote character
    (code point 34) and a line feed (code point 10). *)
Definition quoting_block : node :=
  Tag (py "div") [py "st-content__item"]
    [Tag (py "div") [py "value"] [NavigableString (py "1,5")];
     Tag (py "div") [py "value"]
       [NavigableString (py "12" ++ [34] ++ py " tall")];
     Tag (py "div") [py "value"]
       [NavigableString (py "up" ++ [10] ++ py "down")]].

(** A block with one value cell, of any text; and a cell of 131073
    letters [a], one more than the reader's default limit. *)
Definition cell_block (t : str) : node :=
  Tag (py "div") [py "st-content__item"]
    [Tag (py "div") [py "value"] [NavigableString t]].


Definition document (blocks : list node) : node :=
  Tag (py "[document]") []
    [Tag (py "html") [] [Tag (py "body") [] blocks]].

(** A directory that holds nothing but the input. *)
Definition input_only : gmap str str := {[py "match.html" := py "<html>"]}.

(** A string that neither starts nor ends with white space. *)
Definition trimmed (s : str) : Prop :=
  (forall c, head s = Some c -> isspace c = false)
  /\ (forall c, last s = Some c -> isspace c = false).

(** * Properties *)

(** ** File names *)

Lemma py_inj (s1 s2 : string) : py s1 = py s2 -> s1 = s2.
Proof.
  unfold py. revert s2.
  induction s1 as [|a s1 IH]; intros [|b s2]; simpl; try discriminate.
  - reflexivity.
  - intros H. injection H as Hab Hs.
    f_equal; [|by apply IH].
    rewrite <- (ascii_N_embedding a), <- (ascii_N_embedding b).
    by rewrite Hab.
Qed.

Lemma format_int_inj (i j : N) : format_int i = format_int j -> i = j.
Proof. intros H. apply py_inj in H. by apply (inj pretty) in H. Qed.

Lemma candidate_inj (i j : N) : candidate i = candidate j -> i = j.
Proof.
  unfold candidate. intros H.
  apply app_inv_head in H. apply app_inv_tail in H.
  by apply format_int_inj.
Qed.

Lemma candidate_ne_default (i : N) : candidate i ≠ default_base.
Proof. unfold candidate, default_base, py. simpl. discriminate. Qed.

Lemma candidate_ne_input (i : N) : candidate i ≠ py "match.html".
Proof. unfold candidate, py. simpl. discriminate. Qed.

Lemma os_path_exists_true fs p : os_path_exists fs p = true <-> is_Some (fs !! p).
Proof. unfold os_path_exists. apply bool_decide_eq_true. Qed.

Lemma os_path_exists_false fs p : os_path_exists fs p = false <-> fs !! p = None.
Proof.
  unfold os_path_exists. rewrite bool_decide_eq_false.
  by rewrite eq_None_not_Some.
Qed.

(** What the loop returns is the first free candidate from [i] on. *)
Lemma probe_Some fs fuel i r :
  probe fs fuel i = Some r ->
  exists k, i <= k /\ r = candidate k /\ fs !! candidate k = None
            /\ forall j, i <= j < k -> is_Some (fs !! candidate j).
Proof.
  revert i. induction fuel as [|fuel IH]; intros i; simpl; [discriminate|].
  destruct (os_path_exists fs (candidate i)) eqn:E; simpl.
  - intros H. destruct (IH _ H) as (k & Hk & -> & Hfree & Hbelow).
    exists k. repeat split; [lia|done|].
    intros j Hj. destruct (decide (j = i)) as [->|Hne].
    + by apply os_path_exists_true.
    + apply Hbelow. lia.
  - intros [= <-]. exists i. repeat split; [lia|by apply os_path_exists_false|].
    intros j Hj. lia.
Qed.

(** Running out of fuel means every candidate tried was taken. *)
Lemma probe_None fs fuel i :
  probe fs fuel i = None ->
  forall j, i <= j < i + N.of_nat fuel -> is_Some (fs !! candidate j).
Proof.
  revert i. induction fuel as [|fuel IH]; intros i; simpl.
  - intros _ j Hj. lia.
  - destruct (os_path_exists fs (candidate i)) eqn:E; simpl; [|discriminate].
    intros H j Hj. destruct (decide (j = i)) as [->|Hne].
    + by apply os_path_exists_true.
    + apply (IH _ H). lia.
Qed.

Lemma probe_mono fs fuel fuel' i r :
  probe fs fuel i = Some r -> (fuel <= fuel')%nat -> probe fs fuel' i = Some r.
Proof.
  revert fuel' i. induction fuel as [|fuel IH]; intros fuel' i; simpl;
    [discriminate|].
  intros H Hle. destruct fuel' as [|fuel']; [lia|]. simpl.
  destruct (os_path_exists fs (candidate i)); simpl in *; [|done].
  apply IH; [done|lia].
Qed.

(** A directory of [n] paths cannot hold [n + 1] different candidates. *)
Lemma probe_enough fs i : is_Some (probe fs (S (size fs)) i).
Proof.
  destruct (probe fs (S (size fs)) i) as [r|] eqn:E; [by eexists|].
  exfalso.
  pose proof (probe_None _ _ _ E) as Hall.
  set (cs := (fun k => candidate (i + N.of_nat k)) <$> seq 0 (S (size fs))).
  assert (Hnd : NoDup cs).
  { apply NoDup_fmap_2_strong; [|apply NoDup_seq].
    intros x y _ _ Hxy. apply candidate_inj in Hxy. lia. }
  assert (Hsub : list_to_set (C := gset (list N)) cs ⊆ dom fs).
  { intros p Hp. apply elem_of_list_to_set in Hp.
    apply list_elem_of_fmap in Hp as (k & -> & Hk).
    apply elem_of_seq in Hk. apply elem_of_dom. apply Hall. lia. }
  apply subseteq_size in Hsub.
  rewrite size_list_to_set in Hsub by done.
  rewrite size_dom in Hsub.
  unfold cs in Hsub. rewrite length_fmap, length_seq in Hsub. lia.
Qed.

(** The loop returns, and any run of the model with more iterations than
    the directory has paths gives the result of [next_available_filename]. *)
Lemma next_available_filename_fuel_enough fs base fuel :
  (size fs < fuel)%nat ->
  next_available_filename_fuel fuel fs base
  = Some (next_available_filename fs base).
Proof.
  intros Hfuel. unfold next_available_filename, next_available_filename_fuel.
  destruct (os_path_exists fs base); cbn [negb]; [|done].
  destruct (probe_enough fs 1) as [r Hr]. rewrite Hr.
  apply (probe_mono _ _ fuel) in Hr; [done|lia].
Qed.

Lemma next_available_filename_free fs base :
  fs !! base = None -> next_available_filename fs base = base.
Proof.
  intros H. unfold next_available_filename, next_available_filename_fuel.
  apply os_path_exists_false in H. by rewrite H.
Qed.

Lemma next_available_filename_taken fs base :
  is_Some (fs !! base) ->
  exists i, 1 <= i /\ next_available_filename fs base = candidate i
            /\ fs !! candidate i = None
            /\ forall j, 1 <= j < i -> is_Some (fs !! candidate j).
Proof.
  intros H. unfold next_available_filename, next_available_filename_fuel.
  apply os_path_exists_true in H. rewrite H. cbn [negb].
  destruct (probe_enough fs 1) as [r Hr]. rewrite Hr.
  by apply probe_Some in Hr.
Qed.

Lemma next_available_filename_fresh fs base :
  fs !! next_available_filename fs base = None.
Proof.
  destruct (fs !! base) eqn:E.
  - destruct (next_available_filename_taken fs base) as (i & _ & -> & H & _);
      [by eexists|done].
  - by rewrite next_available_filename_free.
Qed.

Lemma output_name_S (k : nat) :
  (0 < k)%nat -> output_name k = candidate (N.of_nat k).
Proof. destruct k; [lia|done]. Qed.

Lemma output_name_inj (j k : nat) : output_name j = output_name k -> j = k.
Proof.
  destruct j as [|j], k as [|k]; simpl; intros H.
  - done.
  - symmetry in H. by apply candidate_ne_default in H.
  - by apply candidate_ne_default in H.
  - apply candidate_inj in H. lia.
Qed.

Lemma output_name_ne_input (k : nat) : output_name k ≠ py "match.html".
Proof. destruct k; [discriminate|apply candidate_ne_input]. Qed.

(** In a directory whose output names are exactly the first [n], the
    next name is the [n]-th. *)
Lemma next_available_filename_counts fs n :
  (forall k, is_Some (fs !! output_name k) <-> (k < n)%nat) ->
  next_available_filename fs default_base = output_name n.
Proof.
  intros Hfs. destruct n as [|n].
  - apply next_available_filename_free.
    apply eq_None_not_Some. intros H. apply (Hfs 0%nat) in H. lia.
  - destruct (next_available_filename_taken fs default_base)
      as (i & Hi & -> & Hfree & Hbelow).
    { apply (Hfs 0%nat). lia. }
    assert (Hpos : (0 < N.to_nat i)%nat) by lia.
    assert (Hge : ~ (N.to_nat i < S n)%nat).
    { intros Hlt. apply Hfs in Hlt.
      rewrite output_name_S, N2Nat.id, Hfree in Hlt by done.
      by destruct Hlt. }
    destruct (decide (N.to_nat i = S n)) as [Heq|Hne].
    { rewrite <- Heq. by rewrite output_name_S, N2Nat.id. }
    exfalso.
    assert (Htaken : is_Some (fs !! candidate (N.of_nat (S n)))).
    { apply Hbelow. lia. }
    rewrite <- output_name_S in Htaken by lia.
    apply Hfs in Htaken. lia.
Qed.

Lemma busy_directory_lookup n p :
  is_Some (busy_directory n !! p) <-> exists k, (k < n)%nat /\ p = output_name k.
Proof.
  unfold busy_directory. rewrite <- elem_of_dom, dom_list_to_map_L.
  rewrite elem_of_list_to_set, <- list_fmap_compose, list_elem_of_fmap.
  split.
  - intros (k & -> & Hk). apply elem_of_seq in Hk. exists k. split; [lia|done].
  - intros (k & Hk & ->). exists k. split; [done|]. apply elem_of_seq. lia.
Qed.

(** A free base is taken although a numbered file exists, and a gap in
    the numbers is the first free number. *)
Example next_available_filename_base_free :
  next_available_filename {[candidate 1 := []]} default_base
  = py "match_stats.csv".
Proof. vm_compute. reflexivity. Qed.

Example next_available_filename_gap :
  next_available_filename (<[candidate 3 := []]> (busy_directory 2))
    default_base
  = py "match_stats_2.csv".
Proof. vm_compute. reflexivity. Qed.

(** C1: whatever the directory holds, the name chosen for the default
    base is [match_stats.csv] when that path is free, and otherwise
    [match_stats_<i>.csv] for the least [i >= 1] whose path is free; the
    loop of the source reaches that answer within [size fs + 1] rounds. *)
Theorem C1_next_available_filename_least (fs : gmap str str) :
  (forall fuel, (size fs < fuel)%nat ->
     next_available_filename_fuel fuel fs (py "match_stats.csv")
     = Some (next_available_filename fs (py "match_stats.csv")))
  /\ match fs !! py "match_stats.csv" with
     | None =>
         next_available_filename fs (py "match_stats.csv")
         = py "match_stats.csv"
     | Some _ =>
         exists i, 1 <= i
           /\ next_available_filename fs (py "match_stats.csv")
              = py "match_stats_" ++ format_int i ++ py ".csv"
           /\ fs !! (py "match_stats_" ++ format_int i ++ py ".csv") = None
           /\ forall j, 1 <= j < i ->
                is_Some (fs !! (py "match_stats_" ++ format_int j ++ py ".csv"))
     end.
Proof.
  split.
  - intros fuel Hfuel. by apply next_available_filename_fuel_enough.
  - destruct (fs !! py "match_stats.csv") eqn:E.
    + apply next_available_filename_taken. by eexists.
    + by apply next_available_filename_free.
Qed.

(** C9: for every (finite) directory and every base the probe returns:
    from some number of rounds on the loop gives the same name, that name
    is not among the existing paths, and the counter has no cap, since
    for every [k >= 1] some directory makes the loop return
    [match_stats_<k>.csv]. *)
Theorem C9_probe_terminates_fresh_uncapped (fs : gmap str str) (base : str) :
  (exists fuel, forall fuel', (fuel <= fuel')%nat ->
     next_available_filename_fuel fuel' fs base
     = Some (next_available_filename fs base))
  /\ (next_available_filename fs base ∉ dom fs)
  /\ forall k, 1 <= k ->
       exists fs' : gmap str str,
         next_available_filename fs' default_base = candidate k.
Proof.
  split; [|split].
  - exists (S (size fs)). intros fuel' Hle.
    apply next_available_filename_fuel_enough. lia.
  - rewrite elem_of_dom, <- eq_None_not_Some.
    apply next_available_filename_fresh.
  - intros k Hk. exists (busy_directory (N.to_nat k)).
    rewrite <- (N2Nat.id k) at 2. rewrite <- output_name_S by lia.
    apply next_available_filename_counts. intros j.
    rewrite busy_directory_lookup. split.
    + intros (j' & Hj' & Heq). apply output_name_inj in Heq. lia.
    + intros Hj. by exists j.
Qed.

(** C10: when [base] names an existing file the answer is
    [match_stats_<i>.csv] for the least free [i >= 1], whatever [base]
    is: two existing bases give the same name. *)
Theorem C10_fallback_ignores_base (fs : gmap str str) (base : str) :
  is_Some (fs !! base) ->
  (exists i, 1 <= i
     /\ next_available_filename fs base
        = py "match_stats_" ++ format_int i ++ py ".csv"
     /\ fs !! (py "match_stats_" ++ format_int i ++ py ".csv") = None
     /\ forall j, 1 <= j < i ->
          is_Some (fs !! (py "match_stats_" ++ format_int j ++ py ".csv")))
  /\ forall base', is_Some (fs !! base') ->
       next_available_filename fs base' = next_available_filename fs base.
Proof.
  intros Hbase. split; [by apply next_available_filename_taken|].
  intros base' Hbase'.
  destruct (next_available_filename_taken fs base Hbase)
    as (i & Hi & -> & Hfree & Hbelow).
  destruct (next_available_filename_taken fs base' Hbase')
    as (i' & Hi' & -> & Hfree' & Hbelow').
  f_equal. destruct (N.lt_trichotomy i i') as [Hlt|[->|Hgt]]; [|done|].
  - destruct (Hbelow' i) as [x Hx]; [lia|congruence].
  - destruct (Hbelow i') as [x Hx]; [lia|congruence].
Qed.

(** With [out.csv] the only file and the base, the answer is
    [match_stats_1.csv]: nothing of [out.csv] is left in it. *)
Lemma C10_fallback_ignores_base_witness :
  is_Some (({[py "out.csv" := []]} : gmap str str) !! py "out.csv")
  /\ next_available_filename {[py "out.csv" := []]} (py "out.csv")
     = py "match_stats_1.csv".
Proof.
  assert (H : is_Some (({[py "out.csv" := []]} : gmap str str) !! py "out.csv")).
  { rewrite lookup_singleton_eq. by eexists. }
  split; [exact H|].
  destruct (C10_fallback_ignores_base _ _ H) as [(i & Hi & -> & Hfree & Hbelow) _].
  destruct (decide (i = 1)) as [->|Hne]; [reflexivity|].
  destruct (Hbelow 1) as [x Hx]; [lia|].
  rewrite lookup_singleton_ne in Hx; [done|]. vm_compute. discriminate.
Defined.

(** ** The extractor *)

Lemma rank_val_eq (item : node) :
  rank_val item
  = Some match rank item with
         | Some r =>
             match find r (py "span") None with
             | Some label => strip (text label)
             | None => []
             end
         | None => []
         end.
Proof.
  unfold rank_val. destruct (rank item) as [r|]; [|done].
  cbn. by destruct (find r (py "span") None).
Qed.

Lemma player_eq (item : node) :
  player item
  = Some match username item, discrim item with
         | Some u, Some d => strip (text u) ++ strip (text d)
         | _, _ => []
         end.
Proof.
  unfold player.
  by destruct (username item) as [u|], (discrim item) as [d|].
Qed.

Lemma row_eq (item : node) :
  exists p r, player item = Some p /\ rank_val item = Some r
              /\ row item = Some ([p; r] ++ stats item).
Proof.
  unfold row. rewrite rank_val_eq, player_eq. by eexists _, _.
Qed.

(** The loop body never raises, so the loop gives one row per block. *)
Lemma rows_total (soup : node) :
  exists rs, rows soup = Some rs /\ length rs = length (items soup).
Proof.
  unfold rows. induction (items soup) as [|item l IH]; [by exists []|].
  destruct IH as (rs & Hrs & Hlen).
  destruct (row_eq item) as (p & r & _ & _ & Hrow).
  exists (([p; r] ++ stats item) :: rs).
  cbn. rewrite Hrow. cbn. rewrite Hrs. cbn. by rewrite Hlen.
Qed.

(** C3: the player tag is the trimmed username text followed at once by
    the trimmed discriminator text when both elements are found, and the
    empty string when either is missing (so never one of the two texts
    alone); it is the first field of the row. *)
Theorem C3_player_tag (item : node) :
  player item
  = Some match find item (py "span") (Some (py "trn-ign__username")),
             find item (py "span") (Some (py "trn-ign__discriminator")) with
         | Some u, Some d => strip (text u) ++ strip (text d)
         | Some _, None | None, Some _ | None, None => []
         end
  /\ exists fields, row item = Some fields /\ fields !! 0%nat = player item.
Proof.
  split.
  - rewrite player_eq. unfold username, discrim.
    by destruct (find item _ (Some (py "trn-ign__username"))),
               (find item _ (Some (py "trn-ign__discriminator"))).
  - destruct (row_eq item) as (p & r & Hp & _ & Hrow).
    exists ([p; r] ++ stats item). by rewrite Hp.
Qed.

(** C4: the rank field is the trimmed text of the label nested in the
    rank container when both are found, and the empty string when the
    container or the label is missing; the lookup never raises, and the
    value is the second field of the row. *)
Theorem C4_rank_val (item : node) :
  rank_val item
  = Some match find item (py "div") (Some (py "rank")) with
         | Some r =>
             match find r (py "span") None with
             | Some label => strip (text label)
             | None => []
             end
         | None => []
         end
  /\ exists fields, row item = Some fields /\ fields !! 1%nat = rank_val item.
Proof.
  split; [apply rank_val_eq|].
  destruct (row_eq item) as (p & r & _ & Hr & Hrow).
  exists ([p; r] ++ stats item). by rewrite Hr.
Qed.

(** C5: the row is the player tag, the rank, and then the trimmed text of
    every matched value element, one field per element and in the order
    of the document: with [k] value elements the row has [k + 2] fields,
    and field [i + 2] is the text of the [i]-th element. *)
Theorem C5_row_layout (item : node) :
  exists p r,
    player item = Some p /\ rank_val item = Some r
    /\ row item
       = Some ([p; r]
               ++ map (fun v => strip (text v))
                    (find_all item (py "div") (Some (py "value"))))
    /\ (forall fields, row item = Some fields ->
          length fields
          = (length (find_all item (py "div") (Some (py "value"))) + 2)%nat
          /\ forall i v,
               find_all item (py "div") (Some (py "value")) !! i = Some v ->
               fields !! (i + 2)%nat = Some (strip (text v))).
Proof.
  destruct (row_eq item) as (p & r & Hp & Hr & Hrow).
  exists p, r. repeat split; try done.
  - rewrite Hrow in H. injection H as <-.
    cbn. unfold stats. rewrite length_map. lia.
  - intros i v Hv. rewrite Hrow in H. injection H as <-.
    replace (i + 2)%nat with (S (S i)) by lia.
    change (stats item !! i = Some (strip (text v))).
    unfold stats. change (map ?f ?l) with (f <$> l).
    by rewrite list_lookup_fmap, Hv.
Qed.

(** ** Runs of the script *)

Lemma script_Some BeautifulSoup fs fs' msg :
  script BeautifulSoup fs = Some (fs', msg) ->
  exists f soup rs,
    fs !! py "match.html" = Some f /\ BeautifulSoup f = Some soup
    /\ rows soup = Some rs
    /\ fs' = write_csv fs rs.
Proof.
  unfold script. intros H.
  destruct (fs !! py "match.html") as [f|]; [|done]. cbn in H.
  destruct (BeautifulSoup f) as [soup|] eqn:Hsoup; [|done]. cbn in H.
  destruct (rows soup) as [rs|] eqn:Hrs; [|done]. cbn in H.
  injection H as <- _. by exists f, soup, rs.
Qed.

(** A run with a readable, parsable input goes through. *)
Lemma script_runs BeautifulSoup fs f soup :
  fs !! py "match.html" = Some f -> BeautifulSoup f = Some soup ->
  exists rs,
    rows soup = Some rs
    /\ script BeautifulSoup fs
       = Some (write_csv fs rs,
               report (next_available_filename fs default_base) (length rs)).
Proof.
  intros Hf Hsoup. destruct (rows_total soup) as (rs & Hrs & _).
  exists rs. split; [done|].
  unfold script. rewrite Hf. cbn. rewrite Hsoup. cbn. by rewrite Hrs.
Qed.

(** The writer creates its file and leaves every other one as it was. *)
Lemma write_csv_lookup fs rs :
  write_csv fs rs !! next_available_filename fs default_base
  = Some (csv_text rs).
Proof. unfold write_csv. apply lookup_insert_eq. Qed.

Lemma write_csv_keeps fs rs p c :
  fs !! p = Some c -> write_csv fs rs !! p = Some c.
Proof.
  intros Hp. unfold write_csv. rewrite lookup_insert_ne; [done|].
  intros <-. by rewrite next_available_filename_fresh in Hp.
Qed.

Lemma script_keeps BeautifulSoup fs fs' msg p c :
  script BeautifulSoup fs = Some (fs', msg) ->
  fs !! p = Some c -> fs' !! p = Some c.
Proof.
  intros H Hp.
  destruct (script_Some _ _ _ _ H) as (f & soup & rs & _ & _ & _ & ->).
  by apply write_csv_keeps.
Qed.

(** In a directory that had none of the output names and has gained the
    first [n] of them, the writer adds the [n]-th. *)
Lemma write_csv_outputs (fs0 fs : gmap str str) n rs :
  (forall k, fs0 !! output_name k = None) ->
  dom fs = dom fs0 ∪ list_to_set (output_name <$> seq 0 n) ->
  dom (write_csv fs rs)
  = dom fs0 ∪ list_to_set (output_name <$> seq 0 (S n)).
Proof.
  intros Hnone Hdom.
  assert (Hname : next_available_filename fs default_base = output_name n).
  { apply next_available_filename_counts. intros k.
    rewrite <- elem_of_dom, Hdom, elem_of_union, elem_of_dom.
    rewrite elem_of_list_to_set, list_elem_of_fmap. split.
    - intros [Hk|(j & Hj & Hseq)].
      + rewrite Hnone in Hk. by destruct Hk.
      + apply output_name_inj in Hj as ->. apply elem_of_seq in Hseq. lia.
    - intros Hk. right. exists k. split; [done|]. apply elem_of_seq. lia. }
  unfold write_csv. rewrite Hname.
  rewrite dom_insert_L, Hdom, seq_S, fmap_app, list_to_set_app_L. cbn.
  set_solver.
Qed.

Lemma writes_outputs (fs : gmap str str) (batches : list (list (list str))) :
  (forall k, fs !! output_name k = None) ->
  dom (foldl write_csv fs batches)
  = dom fs ∪ list_to_set (output_name <$> seq 0 (length batches)).
Proof.
  intros Hnone. induction batches as [|rs batches IH] using rev_ind.
  - cbn. set_solver.
  - rewrite foldl_snoc, length_app, Nat.add_1_r.
    by apply write_csv_outputs.
Qed.

Lemma runs_outputs BeautifulSoup fs html soup n :
  fs !! py "match.html" = Some html -> BeautifulSoup html = Some soup ->
  (forall k, fs !! output_name k = None) ->
  exists fs_n,
    runs BeautifulSoup n fs = Some fs_n
    /\ dom fs_n = dom fs ∪ list_to_set (output_name <$> seq 0 n)
    /\ forall p c, fs !! p = Some c -> fs_n !! p = Some c.
Proof.
  intros Hin Hsoup Hnone. induction n as [|n IH].
  - exists fs. cbn. split; [done|]. split; [set_solver|done].
  - destruct IH as (fs_n & Hruns & Hdom & Hkeep).
    destruct (script_runs BeautifulSoup fs_n html soup) as (rs & _ & Hrun);
      [by apply Hkeep|done|].
    exists (write_csv fs_n rs). split; [|split].
    + change (runs BeautifulSoup (S n) fs)
        with (runs BeautifulSoup n fs
              ≫= fun fs' => fst <$> script BeautifulSoup fs').
      rewrite Hruns. cbn [mbind option_bind]. by rewrite Hrun.
    + by apply write_csv_outputs.
    + intros p c Hp. by apply write_csv_keeps, Hkeep.
Qed.

(** C2: a run never touches a file that was there before it: whatever
    the directory, every path it held has the same content afterwards.
    In a directory that holds the input and none of the output names (one
    that holds nothing but [match.html], say), [n] runs go through and
    add exactly the files [match_stats.csv], [match_stats_1.csv], ...,
    [match_stats_<n-1>.csv]; and the writer alone, run once per batch of
    rows from the empty directory, leaves exactly these files. *)
Theorem C2_runs_never_overwrite
    (BeautifulSoup : str -> option node) (fs : gmap str str)
    (html : str) (soup : node) (n : nat) :
  fs !! py "match.html" = Some html ->
  BeautifulSoup html = Some soup ->
  (forall k, fs !! output_name k = None) ->
  (forall (fs0 fs1 : gmap str str) msg p c,
     script BeautifulSoup fs0 = Some (fs1, msg) ->
     fs0 !! p = Some c -> fs1 !! p = Some c)
  /\ (exists fs_n,
        runs BeautifulSoup n fs = Some fs_n
        /\ dom fs_n = dom fs ∪ list_to_set (output_name <$> seq 0 n)
        /\ forall p c, fs !! p = Some c -> fs_n !! p = Some c)
  /\ forall batches : list (list (list str)),
       dom (foldl write_csv ∅ batches)
       = list_to_set (output_name <$> seq 0 (length batches)).
Proof.
  intros Hin Hsoup Hnone. split; [|split].
  - intros fs0 fs1 msg p c. apply script_keeps.
  - by apply (runs_outputs _ _ html soup).
  - intros batches. rewrite writes_outputs by (intros k; apply lookup_empty).
    rewrite dom_empty_L. set_solver.
Qed.

(** Three runs in a directory that holds only [match.html]. *)
Lemma C2_runs_never_overwrite_witness :
  exists fs_n,
    runs (fun _ => Some (Tag (py "html") [] [])) 3 {[py "match.html" := []]}
    = Some fs_n
    /\ dom fs_n
       = {[py "match.html"; py "match_stats.csv"; py "match_stats_1.csv";
           py "match_stats_2.csv"]}.
Proof.
  destruct (C2_runs_never_overwrite
              (fun _ => Some (Tag (py "html") [] []))
              {[py "match.html" := []]} [] (Tag (py "html") [] []) 3)
    as (_ & (fs_n & Hruns & Hdom & _) & _).
  - by rewrite lookup_singleton_eq.
  - reflexivity.
  - intros k. apply lookup_singleton_ne. intros H. symmetry in H.
    by apply output_name_ne_input in H.
  - exists fs_n. split; [done|]. rewrite Hdom, dom_singleton_L.
    cbn. set_solver.
Defined.

(** ** The header and the empty document *)

Lemma first_line_app (l rest : str) :
  forallb (fun c => negb (is_newline c)) l = true ->
  first_line (l ++ CR :: rest) = l.
Proof.
  induction l as [|c l IH]; cbn [forallb app first_line]; [done|].
  intros H. apply andb_prop in H as [Hc Hl].
  destruct (is_newline c); [done|]. by rewrite IH.
Qed.

Lemma writerow_header :
  writerow header
  = py "player,rank,TRS,ACS,K,D,A,+/-,K/D,DD" ++ [916]
    ++ py ",ADR,HS%,KAST,FK,FD,MK" ++ [CR; LF].
Proof. vm_compute. reflexivity. Qed.

(** The two scenarios of the specification. *)
Example rows_full_block :
  rows (document [full_block])
  = Some [py <$> ["Player#1234"; "Gold"; "10"; "20"; "3"; "1"; "2"; "0";
                  "1.5"; "90"; "85"; "50"; "92"; "1"; "0"; "2"]].
Proof. vm_compute. reflexivity. Qed.

Example rows_short_block :
  rows (document [short_block]) = Some [[[]; []; py "5"]].
Proof. vm_compute. reflexivity. Qed.

(** C6: when the document has no player block the extractor gives the
    empty list of rows, and the run still creates its output file, whose
    content is the header line and nothing else. *)
Theorem C6_no_blocks_header_only
    (BeautifulSoup : str -> option node) (fs : gmap str str)
    (f : str) (soup : node) :
  fs !! py "match.html" = Some f ->
  BeautifulSoup f = Some soup ->
  find_all soup (py "div") (Some (py "st-content__item")) = [] ->
  rows soup = Some []
  /\ exists fs' msg,
       script BeautifulSoup fs = Some (fs', msg)
       /\ fs !! next_available_filename fs default_base = None
       /\ fs' !! next_available_filename fs default_base
          = Some (py "player,rank,TRS,ACS,K,D,A,+/-,K/D,DD" ++ [916]
                  ++ py ",ADR,HS%,KAST,FK,FD,MK" ++ [CR; LF]).
Proof.
  intros Hf Hsoup Hnone.
  assert (Hrows : rows soup = Some []).
  { unfold rows, items. by rewrite Hnone. }
  split; [done|].
  destruct (script_runs BeautifulSoup fs f soup Hf Hsoup) as (rs & Hrs & Hrun).
  rewrite Hrows in Hrs. injection Hrs as <-.
  eexists _, _. split; [exact Hrun|].
  split; [apply next_available_filename_fresh|].
  rewrite write_csv_lookup. apply (f_equal Some).
  unfold csv_text, writerows. cbn [flat_map]. rewrite app_nil_r.
  apply writerow_header.
Qed.

Lemma C6_no_blocks_header_only_witness :
  rows (document []) = Some []
  /\ exists fs' msg,
       script (fun _ => Some (document [])) input_only = Some (fs', msg)
       /\ fs' !! py "match_stats.csv"
          = Some (py "player,rank,TRS,ACS,K,D,A,+/-,K/D,DD" ++ [916]
                  ++ py ",ADR,HS%,KAST,FK,FD,MK" ++ [CR; LF]).
Proof.
  destruct (C6_no_blocks_header_only
              (fun _ => Some (document [])) input_only (py "<html>")
              (document []))
    as (Hrows & fs' & msg & Hrun & _ & Hfile).
  - reflexivity.
  - reflexivity.
  - reflexivity.
  - split; [exact Hrows|]. exists fs', msg. split; [exact Hrun|].
    exact Hfile.
Defined.

(** C7: whatever rows were extracted, the file a run writes starts with
    the header record, so its first line is the sixteen column names
    [player, rank, TRS, ACS, K, D, A, +/-, K/D, DD-delta, ADR, HS%, KAST,
    FK, FD, MK], in this order and separated by commas. *)
Theorem C7_header_first_line
    (BeautifulSoup : str -> option node) (fs fs' : gmap str str) (msg : str) :
  script BeautifulSoup fs = Some (fs', msg) ->
  exists content rest,
    fs' !! next_available_filename fs default_base = Some content
    /\ content = writerow header ++ rest
    /\ first_line content
       = py "player,rank,TRS,ACS,K,D,A,+/-,K/D,DD" ++ [916]
         ++ py ",ADR,HS%,KAST,FK,FD,MK"
    /\ reader (writerow header)
       = Some [[py "player"; py "rank"; py "TRS"; py "ACS"; py "K"; py "D";
                py "A"; py "+/-"; py "K/D"; py "DD" ++ [916]; py "ADR";
                py "HS%"; py "KAST"; py "FK"; py "FD"; py "MK"]].
Proof.
  intros H.
  destruct (script_Some _ _ _ _ H) as (f & soup & rs & _ & _ & _ & ->).
  exists (csv_text rs), (writerows rs).
  split; [apply write_csv_lookup|]. split; [done|]. split.
  - unfold csv_text. rewrite writerow_header.
    rewrite !app_assoc, <- (app_assoc _ [CR; LF]).
    apply first_line_app. vm_compute. reflexivity.
  - vm_compute. reflexivity.
Qed.

Lemma C7_header_first_line_witness :
  exists fs' msg content,
    script (fun _ => Some (document [full_block; short_block])) input_only
    = Some (fs', msg)
    /\ fs' !! py "match_stats.csv" = Some content
    /\ first_line content
       = py "player,rank,TRS,ACS,K,D,A,+/-,K/D,DD" ++ [916]
         ++ py ",ADR,HS%,KAST,FK,FD,MK".
Proof.
  destruct (script_runs (fun _ => Some (document [full_block; short_block]))
              input_only (py "<html>") (document [full_block; short_block]))
    as (rs & _ & Hrun); [reflexivity|reflexivity|].
  destruct (C7_header_first_line _ _ _ _ Hrun)
    as (content & rest & Hfile & _ & Hline & _).
  eexists _, _, content. split; [exact Hrun|]. split; [exact Hfile|].
  exact Hline.
Defined.

(** ** The reader inverts the writer *)

Section Reader.

(** The field size limit the reader runs under. *)
Variable limit : N.


Lemma parse_line_chars (self : ReaderObj) (line : str) :
  parse_line limit self line
  = parse_chars limit self line ≫= fun self' => parse_process_char limit self' None.
Proof.
  revert self. induction line as [|c line IH]; intros self; [done|].
  cbn [parse_line parse_chars].
  destruct (parse_process_char limit self (Some c)) as [self'|]; [|done].
  cbn. apply IH.
Qed.

Lemma parse_chars_app (self : ReaderObj) (a b : str) :
  parse_chars limit self (a ++ b)
  = parse_chars limit self a ≫= fun self' => parse_chars limit self' b.
Proof.
  revert self. induction a as [|c a IH]; intros self; [done|].
  cbn [app parse_chars].
  destruct (parse_process_char limit self (Some c)) as [self'|]; [|done].
  cbn. apply IH.
Qed.

Lemma reader_from_line (self st st' : ReaderObj) (line : str) (lines : list str) :
  parse_chars limit self line = Some st ->
  parse_process_char limit st None = Some st' ->
  reader_from limit self (line :: lines)
  = if bool_decide (state st' = START_RECORD)
    then rest ← reader_from limit parse_reset lines; Some (fields st' :: rest)
    else reader_from limit st' lines.
Proof.
  intros Hst Hst'. cbn [reader_from].
  rewrite parse_line_chars, Hst. cbn. by rewrite Hst'.
Qed.

(** A line just ended: the reader either gives a record and starts
    afresh, or goes on inside a quoted field. *)
Lemma reader_of_feed_line (self st : ReaderObj) (line rest : str)
    (rs : list (list str)) :
  parse_chars limit self line = Some st ->
  (forall (self0 : ReaderObj) (rs0 : list (list str)),
     feed limit self0 false rest = Some rs0 ->
     reader_from limit self0 (readlines [] rest) = Some rs0) ->
  (st' ← parse_process_char limit st None;
   if bool_decide (state st' = START_RECORD)
   then rs' ← feed limit parse_reset false rest; Some (fields st' :: rs')
   else feed limit st' false rest) = Some rs ->
  reader_from limit self (line :: readlines [] rest) = Some rs.
Proof.
  intros Hline IH Hfeed.
  destruct (parse_process_char limit st None) as [st'|] eqn:Hst'; [|done].
  cbn in Hfeed. rewrite (reader_from_line self st st') by done.
  destruct (bool_decide (state st' = START_RECORD)); [|by apply IH].
  destruct (feed limit parse_reset false rest) as [rs'|] eqn:Hrest; [|done].
  by rewrite (IH _ _ Hrest).
Qed.

Lemma parse_chars_snoc (self st st' : ReaderObj) (cur : str) (c : char) :
  parse_chars limit self cur = Some st ->
  parse_process_char limit st (Some c) = Some st' ->
  parse_chars limit self (cur ++ [c]) = Some st'.
Proof.
  intros Hcur Hc. rewrite parse_chars_app, Hcur. cbn. by rewrite Hc.
Qed.

Lemma reader_of_feed_bounded (n : nat) :
  forall (s : str) (self st : ReaderObj) (cur : str) (rs : list (list str)),
    (length s <= n)%nat ->
    parse_chars limit self cur = Some st ->
    feed limit st (negb (bool_decide (cur = []))) s = Some rs ->
    reader_from limit self (readlines cur s) = Some rs.
Proof.
  induction n as [|n IH]; intros s self st cur rs Hlen Hcur Hfeed.
  - destruct s; [|cbn in Hlen; lia].
    cbn [readlines feed] in *. case_bool_decide as Hnil.
    + subst cur. cbn in Hcur. injection Hcur as ->. exact Hfeed.
    + cbn [negb] in Hfeed.
      destruct (parse_process_char limit st None) as [st'|] eqn:Hst'; [|done].
      cbn in Hfeed. rewrite (reader_from_line self st st') by done.
      by destruct (bool_decide (state st' = START_RECORD)).
  - destruct s as [|c s']; [apply (IH [] self st); [cbn; lia|done..]|].
    cbn [length] in Hlen.
    assert (IH0 : forall rest, (length rest <= n)%nat ->
              forall (self0 : ReaderObj) (rs0 : list (list str)),
                feed limit self0 false rest = Some rs0 ->
                reader_from limit self0 (readlines [] rest) = Some rs0).
    { intros rest Hrest self0 rs0 H0. by apply (IH rest self0 self0 []). }
    cbn [feed] in Hfeed.
    destruct (parse_process_char limit st (Some c)) as [st1|] eqn:Hc; [|done].
    cbn [mbind option_bind] in Hfeed.
    pose proof (parse_chars_snoc _ _ _ _ _ Hcur Hc) as Hcur1.
    cbn [readlines]. unfold ends_line in Hfeed.
    destruct (c =? LF) eqn:HLF.
    { cbn [orb] in Hfeed.
      apply (reader_of_feed_line self st1); [done|apply IH0; lia|done]. }
    destruct (c =? CR) eqn:HCR.
    + destruct s' as [|c' s''].
      { cbn in Hfeed. change [cur ++ [c]] with ((cur ++ [c]) :: readlines [] []).
        apply (reader_of_feed_line self st1); [done|apply IH0; cbn; lia|done]. }
      destruct (c' =? LF) eqn:HLF'.
      * cbn [orb andb negb] in Hfeed. cbn [feed] in Hfeed.
        destruct (parse_process_char limit st1 (Some c')) as [st2|] eqn:Hc'; [|done].
        cbn [mbind option_bind] in Hfeed.
        unfold ends_line in Hfeed. rewrite HLF' in Hfeed. cbn [orb] in Hfeed.
        apply (reader_of_feed_line self st2).
        -- replace (cur ++ [c; c']) with ((cur ++ [c]) ++ [c'])
             by by rewrite <- app_assoc.
           by apply (parse_chars_snoc _ st1).
        -- apply IH0. cbn in Hlen. lia.
        -- done.
      * cbn [orb andb negb] in Hfeed.
        apply (reader_of_feed_line self st1); [done|apply IH0; lia|done].
    + cbn [orb andb] in Hfeed.
      apply (IH s' self st1); [lia|done|].
      replace (bool_decide (cur ++ [c] = [])) with false; [done|].
      symmetry. apply bool_decide_eq_false. by destruct cur.
Qed.

(** Whatever the one-pass reader reads, [reader] reads. *)
Lemma reader_of_feed (s : str) (rs : list (list str)) :
  feed limit parse_reset false s = Some rs -> reader_limit limit s = Some rs.
Proof.
  intros H. unfold reader_limit.
  by apply (reader_of_feed_bounded (length s) s parse_reset parse_reset []).
Qed.

(** *** Characters *)

Lemma special_false (c : char) :
  special c = false ->
  (c =? delimiter) = false /\ (c =? quotechar) = false /\ is_newline c = false.
Proof.
  unfold special, is_newline, lineterminator. intros H.
  apply orb_false_elim in H as [H Hnl]. apply orb_false_elim in H as [Hd Hq].
  apply bool_decide_eq_false in Hnl. repeat split; try done.
  apply orb_false_intro; apply N.eqb_neq; intros ->; apply Hnl; set_solver.
Qed.

Lemma ends_line_not_newline (c : char) (s : str) :
  is_newline c = false -> ends_line c s = false.
Proof.
  unfold is_newline, ends_line. intros H.
  apply orb_false_elim in H as [-> ->]. done.
Qed.

(** *** Steps of the one-pass reader *)

(** Closes a goal about one step of [parse_process_char] from the
    comparisons known to fail. *)
Lemma parse_add_char_ok (self : ReaderObj) (c : char) (st : ParserState) :
  N.of_nat (length (field self)) < limit ->
  parse_add_char limit self c st
  = Some (mkReader (fields self) (field self ++ [c]) st).
Proof. intros H. unfold parse_add_char. apply N.ltb_lt in H. by rewrite H. Qed.

Ltac reader_step :=
  unfold parse_process_char; cbn;
  repeat match goal with
    | H : (_ =? _) = false |- _ => rewrite H
    | H : is_newline _ = false |- _ => rewrite H
    end;
  try (rewrite parse_add_char_ok by (cbn [field length] in *; lia));
  done.

Lemma feed_step (st st' : ReaderObj) (b : bool) (c : char) (s : str) :
  parse_process_char limit st (Some c) = Some st' ->
  ends_line c s = false ->
  feed limit st b (c :: s) = feed limit st' true s.
Proof. intros Hc Hend. cbn [feed]. rewrite Hc. cbn. by rewrite Hend. Qed.

(** Inside a quoted field a line end changes nothing. *)
Lemma feed_step_quoted (st : ReaderObj) (d : list str) (fld : str)
    (b : bool) (c c' : char) (s : str) :
  parse_process_char limit st (Some c) = Some (mkReader d fld IN_QUOTED_FIELD) ->
  feed limit st b (c :: c' :: s) = feed limit (mkReader d fld IN_QUOTED_FIELD) true (c' :: s).
Proof.
  intros Hc. cbn [feed]. rewrite Hc. cbn [mbind option_bind].
  by destruct (ends_line c (c' :: s)).
Qed.

Lemma feed_start_record (b : bool) (c : char) (s : str) :
  is_newline c = false ->
  feed limit parse_reset b (c :: s) = feed limit (mkReader [] [] START_FIELD) b (c :: s).
Proof.
  intros Hc. cbn [feed].
  replace (parse_process_char limit parse_reset (Some c))
    with (parse_process_char limit (mkReader [] [] START_FIELD) (Some c));
    [done|reader_step].
Qed.

(** *** One field *)

Lemma escape_field_plain (f : str) :
  existsb special f = false -> escape_field f = f.
Proof.
  induction f as [|c f IH]; [done|]. cbn [existsb]. intros H.
  apply orb_false_elim in H as [Hc Hf].
  apply special_false in Hc as (_ & Hq & _).
  unfold escape_field in *. cbn [flat_map]. rewrite Hq, IH by done. done.
Qed.

Lemma feed_quoted_body (f : str) :
  forall (d : list str) (fld : str) (b : bool) (tail : str),
    N.of_nat (length fld + length f) <= limit ->
    feed limit (mkReader d fld IN_QUOTED_FIELD) b
      (escape_field f ++ quotechar :: tail)
    = feed limit (mkReader d (fld ++ f) IN_QUOTED_FIELD) true
        (quotechar :: tail).
Proof.
  induction f as [|c f IH]; intros d fld b tail Hlen.
  - by rewrite app_nil_r.
  - change (escape_field (c :: f))
      with ((if c =? quotechar then [quotechar; c] else [c]) ++ escape_field f).
    destruct (c =? quotechar) eqn:Hq.
    + apply N.eqb_eq in Hq as ->. cbn [app].
      rewrite (feed_step _ (mkReader d fld QUOTE_IN_QUOTED_FIELD)) by done.
      rewrite (feed_step _ (mkReader d (fld ++ [quotechar]) IN_QUOTED_FIELD));
        [|reader_step|done].
      rewrite IH by (rewrite length_app; cbn [length] in *; lia).
      by rewrite <- app_assoc.
    + cbn [app].
      destruct (escape_field f ++ quotechar :: tail) as [|c' s] eqn:Hs.
      { by destruct (escape_field f). }
      rewrite (feed_step_quoted _ d (fld ++ [c])).
      * rewrite <- Hs, IH by (rewrite length_app; cbn [length] in *; lia).
        by rewrite <- app_assoc.
      * reader_step.
Qed.

Lemma feed_plain_body (f : str) :
  forall (d : list str) (fld : str) (b : bool) (c0 : char) (tail : str),
    existsb special f = false ->
    N.of_nat (length fld + length f) <= limit ->
    feed limit (mkReader d fld IN_FIELD) b (f ++ c0 :: tail)
    = feed limit (mkReader d (fld ++ f) IN_FIELD) true (c0 :: tail).
Proof.
  induction f as [|c f IH]; intros d fld b c0 tail Hf Hlen.
  - by rewrite app_nil_r.
  - cbn [existsb] in Hf. apply orb_false_elim in Hf as [Hc Hf].
    apply special_false in Hc as (Hd & Hq & Hnl). cbn [app].
    rewrite (feed_step _ (mkReader d (fld ++ [c]) IN_FIELD)).
    + rewrite IH by (try done; rewrite length_app; cbn [length] in *; lia).
      by rewrite <- app_assoc.
    + reader_step.
    + by apply ends_line_not_newline.
Qed.

(** Reading the text of a field, whatever follows it, leaves the reader
    with that field in hand. *)
Lemma feed_field (d : list str) (f : str) (b : bool) (c0 : char) (tail : str) :
  N.of_nat (length f) <= limit ->
  exists st,
    after_field d f st
    /\ feed limit (mkReader d [] START_FIELD) b (join_append f false ++ c0 :: tail)
       = feed limit st true (c0 :: tail).
Proof.
  intros Hlen. unfold join_append. cbn [orb].
  destruct (existsb special f) eqn:Hf.
  - exists (mkReader d f QUOTE_IN_QUOTED_FIELD). split.
    { split; [done|]. right. by right. }
    cbn [app]. rewrite <- app_assoc. cbn [app].
    rewrite (feed_step _ (mkReader d [] IN_QUOTED_FIELD)) by done.
    rewrite feed_quoted_body by done. cbn [app].
    by rewrite (feed_step _ (mkReader d f QUOTE_IN_QUOTED_FIELD)).
  - rewrite escape_field_plain by done.
    destruct f as [|c f].
    + exists (mkReader d [] START_FIELD). split; [|done].
      split; [done|]. by left.
    + exists (mkReader d (c :: f) IN_FIELD). split.
      { split; [done|]. right. by left. }
      cbn [existsb] in Hf. apply orb_false_elim in Hf as [Hc Hf].
      apply special_false in Hc as (Hd & Hq & Hnl). cbn [app].
      rewrite (feed_step _ (mkReader d [c] IN_FIELD)).
      * by rewrite feed_plain_body.
      * reader_step.
      * by apply ends_line_not_newline.
Qed.

Lemma after_field_delimiter (d : list str) (f : str) (st : ReaderObj) :
  after_field d f st ->
  parse_process_char limit st (Some delimiter)
  = Some (mkReader (d ++ [f]) [] START_FIELD).
Proof.
  destruct st as [fs fld stt]. unfold after_field. cbn.
  by intros [-> [(-> & -> & ->)|[(-> & ->)|(-> & ->)]]].
Qed.

Lemma after_field_CR (d : list str) (f : str) (st : ReaderObj) :
  after_field d f st ->
  parse_process_char limit st (Some CR) = Some (mkReader (d ++ [f]) [] EAT_CRNL).
Proof.
  destruct st as [fs fld stt]. unfold after_field. cbn.
  by intros [-> [(-> & -> & ->)|[(-> & ->)|(-> & ->)]]].
Qed.

(** *** One record *)

Lemma feed_end_of_record (r : list str) (b : bool) (rest : str) :
  feed limit (mkReader r [] EAT_CRNL) b (LF :: rest)
  = rs ← feed limit parse_reset false rest; Some (r :: rs).
Proof. done. Qed.

Lemma feed_fields (fs : list str) :
  forall (d : list str) (b : bool) (rest : str),
    fs <> [] ->
    Forall (fun f => N.of_nat (length f) <= limit) fs ->
    feed limit (mkReader d [] START_FIELD) b
      (join_fields fs ++ CR :: LF :: rest)
    = rs ← feed limit parse_reset false rest; Some ((d ++ fs) :: rs).
Proof.
  induction fs as [|f fs IH]; intros d b rest Hne Hlen; [done|].
  apply Forall_cons in Hlen as [Hf Hlen].
  destruct fs as [|f2 fs].
  - cbn [join_fields].
    destruct (feed_field d f b CR (LF :: rest) Hf) as (st & Hst & ->).
    rewrite (feed_step _ _ _ _ _ (after_field_CR _ _ _ Hst)) by done.
    apply feed_end_of_record.
  - change (join_fields (f :: f2 :: fs))
      with (join_append f false ++ [delimiter] ++ join_fields (f2 :: fs)).
    rewrite <- !app_assoc. cbn [app].
    destruct (feed_field d f b delimiter
                (join_fields (f2 :: fs) ++ CR :: LF :: rest) Hf)
      as (st & Hst & ->).
    rewrite (feed_step _ _ _ _ _ (after_field_delimiter _ _ _ Hst)) by done.
    rewrite IH by done. by rewrite <- app_assoc.
Qed.

Lemma join_append_nil (f : str) : join_append f false = [] -> f = [].
Proof.
  unfold join_append. cbn [orb].
  destruct (existsb special f); [done|]. by destruct f as [|c f]; [|cbn; case_match].
Qed.

Lemma join_fields_nil (r : list str) :
  join_fields r = [] -> r = [] \/ r = [[]].
Proof.
  destruct r as [|f [|f2 r]]; [by left| |].
  - cbn [join_fields]. intros H. right. by rewrite (join_append_nil f H).
  - change (join_fields (f :: f2 :: r))
      with (join_append f false ++ [delimiter] ++ join_fields (f2 :: r)).
    intros H. by apply app_eq_nil in H as [_ H].
Qed.

Lemma join_append_head (f : str) (c : char) (t : str) :
  join_append f false = c :: t -> is_newline c = false.
Proof.
  unfold join_append. cbn [orb].
  destruct (existsb special f) eqn:Hf.
  - by intros [= <- _].
  - rewrite escape_field_plain by done. intros ->.
    cbn [existsb] in Hf. apply orb_false_elim in Hf as [Hc _].
    by apply special_false in Hc as (_ & _ & Hnl).
Qed.

Lemma join_fields_head (r : list str) (c : char) (t : str) :
  join_fields r = c :: t -> is_newline c = false.
Proof.
  destruct r as [|f [|f2 r]]; [done| |].
  - apply join_append_head.
  - change (join_fields (f :: f2 :: r))
      with (join_append f false ++ [delimiter] ++ join_fields (f2 :: r)).
    destruct (join_append f false) as [|c' t'] eqn:Hf.
    + by intros [= <- _].
    + intros [= <- _]. by apply (join_append_head f c' t').
Qed.

Lemma feed_writerow (r : list str) (rest : str) :
  Forall (fun f => N.of_nat (length f) <= limit) r ->
  feed limit parse_reset false (writerow r ++ rest)
  = rs ← feed limit parse_reset false rest; Some (r :: rs).
Proof.
  intros Hlen. unfold writerow. destruct r as [|f r]; [done|].
  rewrite bool_decide_eq_true_2 by done. cbn [andb].
  case_bool_decide as Hrec.
  - destruct (join_fields_nil _ Hrec) as [?|[= -> ->]]; done.
  - destruct (join_fields (f :: r)) as [|c t] eqn:Hj; [done|].
    pose proof (join_fields_head _ _ _ Hj) as Hc.
    rewrite <- app_assoc. unfold lineterminator.
    change ((c :: t) ++ [CR; LF] ++ rest)
      with (c :: (t ++ CR :: LF :: rest)).
    rewrite feed_start_record by done.
    change (c :: (t ++ CR :: LF :: rest))
      with ((c :: t) ++ CR :: LF :: rest).
    rewrite <- Hj. by rewrite feed_fields.
Qed.

Lemma feed_writerows (rs : list (list str)) :
  Forall (Forall (fun f => N.of_nat (length f) <= limit)) rs ->
  feed limit parse_reset false (writerows rs) = Some rs.
Proof.
  induction 1 as [|r rs Hr _ IH]; [done|].
  unfold writerows in *. cbn [flat_map].
  by rewrite feed_writerow, IH.
Qed.

(** The reader gives back the records the writer wrote, provided no
    field is longer than its limit. *)
Lemma reader_writerows (rs : list (list str)) :
  Forall (Forall (fun f => N.of_nat (length f) <= limit)) rs ->
  reader_limit limit (writerows rs) = Some rs.
Proof. intros Hlen. by apply reader_of_feed, feed_writerows. Qed.

End Reader.

(** *** Fields within the default limit *)



(** * Further properties *)

(** ** Runs *)

(** X2: a run that goes through creates exactly one file: the name it
    picks was free, it is the only path whose content changes, and the
    directory has one path more. *)
Theorem X2_script_creates_one_file
    (BeautifulSoup : str -> option node) (fs fs' : gmap str str) (msg : str) :
  script BeautifulSoup fs = Some (fs', msg) ->
  fs !! next_available_filename fs default_base = None
  /\ is_Some (fs' !! next_available_filename fs default_base)
  /\ (forall p, p <> next_available_filename fs default_base ->
        fs' !! p = fs !! p)
  /\ dom fs' = {[next_available_filename fs default_base]} ∪ dom fs
  /\ size fs' = S (size fs).
Proof.
  intros H.
  destruct (script_Some _ _ _ _ H) as (f & soup & rs & _ & _ & _ & ->).
  pose proof (next_available_filename_fresh fs default_base) as Hfresh.
  split; [done|]. split; [by rewrite write_csv_lookup|].
  unfold write_csv. split; [|split].
  - intros p Hp. by rewrite lookup_insert_ne.
  - by rewrite dom_insert_L.
  - by rewrite map_size_insert_None.
Qed.

Lemma X2_script_creates_one_file_witness :
  exists fs' msg,
    script (fun _ => Some (document [short_block])) input_only = Some (fs', msg)
    /\ dom fs' = {[py "match_stats.csv"]} ∪ dom input_only
    /\ size fs' = 2%nat.
Proof.
  destruct (script_runs (fun _ => Some (document [short_block]))
              input_only (py "<html>") (document [short_block]))
    as (rs & _ & Hrun); [reflexivity|reflexivity|].
  destruct (X2_script_creates_one_file _ _ _ _ Hrun)
    as (_ & _ & _ & Hdom & Hsize).
  eexists _, _. split; [exact Hrun|]. split; [exact Hdom|exact Hsize].
Defined.



(** ** The extractor *)

(** X4: the extractor gives one row per player block, in document order
    and none skipped: row [i] is the tag, the rank and the cells of the
    [i]-th matching [div]. *)
Theorem X4_rows_in_document_order (soup : node) :
  exists rs,
    rows soup = Some rs
    /\ length rs
       = length (find_all soup (py "div") (Some (py "st-content__item")))
    /\ forall i item,
         find_all soup (py "div") (Some (py "st-content__item")) !! i
         = Some item ->
         exists p rv,
           player item = Some p /\ rank_val item = Some rv
           /\ rs !! i = Some ([p; rv] ++ stats item).
Proof.
  destruct (rows_total soup) as (rs & Hrs & Hlen).
  exists rs. split; [done|]. split; [done|].
  intros i item Hi. unfold rows in Hrs. apply mapM_Some in Hrs.
  destruct (Forall2_lookup_l _ _ _ _ _ Hrs Hi) as (r & Hr & Hrow).
  destruct (row_eq item) as (p & rv & Hp & Hrv & Hrow').
  exists p, rv. split; [done|]. split; [done|]. congruence.
Qed.

(** ** The report *)



(** ** [strip] *)

Lemma lstrip_split (s : str) :
  exists l, s = l ++ lstrip s /\ Forall (fun c => isspace c = true) l.
Proof.
  induction s as [|c s (l & Hl & Hsp)]; [by exists []|].
  cbn [lstrip]. destruct (isspace c) eqn:Hc.
  - exists (c :: l). split; [by rewrite Hl at 1|by constructor].
  - by exists [].
Qed.

Lemma lstrip_head (s : str) (c : char) :
  head (lstrip s) = Some c -> isspace c = false.
Proof.
  induction s as [|c' s IH]; [done|]. cbn [lstrip].
  destruct (isspace c') eqn:Hc; [done|]. by intros [= <-].
Qed.

Lemma lstrip_fixed (s : str) :
  (forall c, head s = Some c -> isspace c = false) -> lstrip s = s.
Proof. destruct s as [|c s]; [done|]. intros H. cbn. by rewrite H. Qed.

Lemma head_rev (s : str) : head (rev s) = last s.
Proof.
  induction s as [|c s _] using rev_ind; [done|].
  by rewrite rev_unit, last_snoc.
Qed.

Lemma last_rev (s : str) : last (rev s) = head s.
Proof. by rewrite <- head_rev, rev_involutive. Qed.

Lemma trimmed_strip (s : str) : trimmed s -> strip s = s.
Proof.
  intros [Hhead Hlast]. unfold strip, rstrip.
  rewrite (lstrip_fixed s) by done.
  rewrite lstrip_fixed; [apply rev_involutive|].
  intros c. rewrite head_rev. apply Hlast.
Qed.

Lemma strip_split (s : str) :
  exists l r,
    s = l ++ strip s ++ r
    /\ Forall (fun c => isspace c = true) l
    /\ Forall (fun c => isspace c = true) r.
Proof.
  destruct (lstrip_split s) as (l & Hl & Hlsp).
  destruct (lstrip_split (rev (lstrip s))) as (r & Hr & Hrsp).
  exists l, (rev r). split; [|split; [done|by apply Forall_rev]].
  unfold strip, rstrip. rewrite <- rev_app_distr, <- Hr, rev_involutive.
  exact Hl.
Qed.

Lemma strip_trimmed (s : str) : trimmed (strip s).
Proof.
  split; intros c Hc.
  - destruct (lstrip_split (rev (lstrip s))) as (r & Hr & _).
    apply (lstrip_head s).
    apply (f_equal (@rev N)) in Hr.
    rewrite rev_involutive, rev_app_distr in Hr.
    change (rev (lstrip (rev (lstrip s)))) with (strip s) in Hr.
    rewrite Hr. destruct (strip s); [done|]. exact Hc.
  - unfold strip, rstrip in Hc. rewrite last_rev in Hc.
    by apply lstrip_head in Hc.
Qed.

Lemma trimmed_app (a b : str) : trimmed a -> trimmed b -> trimmed (a ++ b).
Proof.
  intros [Ha1 Ha2] [Hb1 Hb2]. split; intros c.
  - destruct a as [|x a]; [apply Hb1|apply Ha1].
  - destruct b as [|y b _] using rev_ind.
    + rewrite app_nil_r. apply Ha2.
    + rewrite app_assoc, last_snoc. intros [= <-]. apply Hb2.
      by rewrite last_snoc.
Qed.

Lemma trimmed_nil : trimmed [].
Proof. by split. Qed.

(** X6: what [strip] does to a string: it drops a run of white space at
    each end and nothing else, what is left neither starts nor ends with
    white space, and stripping again changes nothing. *)
Theorem X6_strip_both_ends (s : str) :
  (exists l r,
     s = l ++ strip s ++ r
     /\ Forall (fun c => isspace c = true) l
     /\ Forall (fun c => isspace c = true) r)
  /\ (forall c, head (strip s) = Some c -> isspace c = false)
  /\ (forall c, last (strip s) = Some c -> isspace c = false)
  /\ strip (strip s) = strip s.
Proof.
  split; [apply strip_split|].
  destruct (strip_trimmed s) as [Hhead Hlast].
  split; [done|]. split; [done|]. by apply trimmed_strip.
Qed.

(** X7: every field of every extracted row is already trimmed:
    stripping it again gives the same text.  (The player tag is the
    concatenation of two stripped texts, which is again stripped.) *)
Theorem X7_fields_trimmed (soup : node) :
  exists rs,
    rows soup = Some rs
    /\ Forall (Forall (fun f => strip f = f)) rs.
Proof.
  destruct (rows_total soup) as (rs & Hrs & _).
  exists rs. split; [done|].
  unfold rows in Hrs. apply mapM_Some in Hrs.
  induction Hrs as [|item r items rs Hrow _ IH]; [done|].
  constructor; [|done].
  destruct (row_eq item) as (p & rv & Hp & Hrv & Hrow').
  rewrite Hrow in Hrow'. injection Hrow' as ->.
  rewrite player_eq in Hp. injection Hp as <-.
  rewrite rank_val_eq in Hrv. injection Hrv as <-.
  repeat constructor.
  - apply trimmed_strip.
    destruct (username item), (discrim item);
      auto using trimmed_app, strip_trimmed, trimmed_nil.
  - apply trimmed_strip.
    destruct (rank item) as [r|]; [|apply trimmed_nil].
    destruct (find r (py "span") None);
      auto using strip_trimmed, trimmed_nil.
  - unfold stats. change (map ?f ?l) with (f <$> l).
    apply Forall_fmap, Forall_true. intros v.
    apply trimmed_strip, strip_trimmed.
Qed.

(** ** The CSV text *)

Lemma join_fields_plain (f : str) (fs : list str) :
  Forall (fun f => existsb special f = false) (f :: fs) ->
  join_fields (f :: fs) = f ++ flat_map (fun g => delimiter :: g) fs.
Proof.
  revert f. induction fs as [|g fs IH]; intros f Hplain.
  - cbn [join_fields flat_map]. unfold join_append.
    apply Forall_inv in Hplain. rewrite Hplain. cbn [orb].
    by rewrite escape_field_plain, app_nil_r.
  - change (join_fields (f :: g :: fs))
      with (join_append f false ++ [delimiter] ++ join_fields (g :: fs)).
    rewrite IH by by apply Forall_inv_tail in Hplain.
    unfold join_append. apply Forall_inv in Hplain. rewrite Hplain.
    cbn [orb]. by rewrite escape_field_plain.
Qed.

(** X8: a row of two or more fields none of which holds a comma, a quote
    character, a CR or an LF is written as it stands: the fields, a comma
    between them, and CR LF; no quote is added. *)
Theorem X8_plain_row_verbatim (f1 f2 : str) (fs : list str) :
  Forall (fun f => existsb special f = false) (f1 :: f2 :: fs) ->
  writerow (f1 :: f2 :: fs)
  = f1 ++ flat_map (fun g => delimiter :: g) (f2 :: fs) ++ [CR; LF].
Proof.
  intros Hplain. unfold writerow. rewrite join_fields_plain by done.
  rewrite bool_decide_eq_true_2 by done.
  rewrite bool_decide_eq_false_2.
  - cbn [andb]. by rewrite <- app_assoc.
  - cbn [flat_map]. by destruct f1.
Qed.

Lemma X8_plain_row_verbatim_witness :
  writerow [py "Player#1234"; py "Gold"; py "1.5"]
  = py "Player#1234,Gold,1.5" ++ [CR; LF].
Proof.
  rewrite (X8_plain_row_verbatim (py "Player#1234") (py "Gold") [py "1.5"]).
  - reflexivity.
  - repeat constructor.
Defined.

(** Some limit is above every field of a given table. *)
Lemma fields_bounded (rs : list (list str)) :
  exists limit, Forall (Forall (fun f => N.of_nat (length f) <= limit)) rs.
Proof.
  assert (Hrow : forall r : list str,
            exists limit, Forall (fun f => N.of_nat (length f) <= limit) r).
  { induction r as [|f r (limit & IH)]; [by exists 0|].
    exists (N.max limit (N.of_nat (length f))). constructor; [lia|].
    eapply Forall_impl; [exact IH|]. cbn. lia. }
  induction rs as [|r rs (limit & IH)]; [by exists 0|].
  destruct (Hrow r) as (limit' & Hr).
  exists (N.max limit limit'). constructor.
  - eapply Forall_impl; [exact Hr|]. cbn. lia.
  - eapply Forall_impl; [exact IH|]. intros r' Hr'.
    eapply Forall_impl; [exact Hr'|]. cbn. lia.
Qed.

(** X9: the text written determines the rows: two different lists of
    rows never give the same file (a comma inside a field and a comma
    between two fields are told apart by the quotes). *)
Theorem X9_csv_text_injective (rs1 rs2 : list (list str)) :
  rs1 <> rs2 -> csv_text rs1 <> csv_text rs2.
Proof.
  intros Hne H. apply Hne.
  destruct (fields_bounded ((header :: rs1) ++ (header :: rs2)))
    as (limit & Hlimit).
  apply Forall_app in Hlimit as [Hlimit1 Hlimit2].
  pose proof (reader_writerows limit (header :: rs1) Hlimit1) as H1.
  pose proof (reader_writerows limit (header :: rs2) Hlimit2) as H2.
  change (writerows (header :: rs1)) with (csv_text rs1) in H1.
  change (writerows (header :: rs2)) with (csv_text rs2) in H2.
  rewrite H in H1. congruence.
Qed.

Lemma X9_csv_text_injective_witness :
  [[py "a,b"; py "c"]] <> [[py "a"; py "b,c"]]
  /\ csv_text [[py "a,b"; py "c"]] <> csv_text [[py "a"; py "b,c"]].
Proof.
  assert (H : [[py "a,b"; py "c"]] <> [[py "a"; py "b,c"]])
    by (vm_compute; discriminate).
  split; [exact H|]. exact (X9_csv_text_injective _ _ H).
Defined.

(** ** The counter *)

(** X10: the number in the name is at most the number of existing paths:
    when [match_stats.csv] exists in a directory of [k] paths the name
    chosen is [match_stats_<i>.csv] with [1 <= i <= k], so the loop
    checks at most [k] numbered names. *)
Theorem X10_counter_bounded_by_size (fs : gmap str str) :
  is_Some (fs !! default_base) ->
  exists i,
    1 <= i <= N.of_nat (size fs)
    /\ next_available_filename fs default_base
       = py "match_stats_" ++ format_int i ++ py ".csv".
Proof.
  intros Hbase.
  destruct (next_available_filename_taken fs default_base Hbase)
    as (i & Hi & Hname & _ & Hbelow).
  exists i. split; [|done]. split; [done|].
  set (cs := output_name <$> seq 0 (N.to_nat i)).
  assert (Hnd : NoDup cs).
  { apply NoDup_fmap_2_strong; [|apply NoDup_seq].
    intros x y _ _. apply output_name_inj. }
  assert (Hsub : list_to_set (C := gset (list N)) cs ⊆ dom fs).
  { intros p Hp. apply elem_of_list_to_set in Hp.
    apply list_elem_of_fmap in Hp as (k & -> & Hk).
    apply elem_of_seq in Hk. apply elem_of_dom.
    destruct k as [|k]; [done|].
    rewrite output_name_S by lia. apply Hbelow. lia. }
  apply subseteq_size in Hsub.
  rewrite size_list_to_set, size_dom in Hsub by done.
  unfold cs in Hsub. rewrite length_fmap, length_seq in Hsub. lia.
Qed.

Lemma X10_counter_bounded_by_size_witness :
  exists i,
    1 <= i <= 3
    /\ next_available_filename
         (<[candidate 2 := []]> (<[default_base := []]> input_only))
         default_base
       = py "match_stats_" ++ format_int i ++ py ".csv".
Proof.
  destruct (X10_counter_bounded_by_size
              (<[candidate 2 := []]> (<[default_base := []]> input_only)))
    as (i & Hi & Hname).
  - vm_compute. by eexists.
  - exists i. split; [|exact Hname]. exact Hi.
Defined.

(** X11: only the output names matter to the choice: two directories in
    which the same names among [match_stats.csv], [match_stats_1.csv],
    ... exist get the same new name, whatever else they hold and
    whatever the files contain. *)
Theorem X11_choice_depends_on_output_names (fs1 fs2 : gmap str str) :
  (forall k, is_Some (fs1 !! output_name k) <-> is_Some (fs2 !! output_name k)) ->
  next_available_filename fs1 default_base
  = next_available_filename fs2 default_base.
Proof.
  intros Hsame.
  assert (Hcand : forall j, 1 <= j ->
            (is_Some (fs1 !! candidate j) <-> is_Some (fs2 !! candidate j))).
  { intros j Hj. rewrite <- (N2Nat.id j), <- output_name_S by lia.
    apply Hsame. }
  destruct (fs1 !! default_base) as [c1|] eqn:E1.
  - assert (E2 : is_Some (fs2 !! default_base)).
    { apply (Hsame 0%nat). change (output_name 0) with default_base.
      by rewrite E1. }
    destruct (next_available_filename_taken fs1 default_base)
      as (i1 & Hi1 & -> & Hfree1 & Hbelow1); [by rewrite E1|].
    destruct (next_available_filename_taken fs2 default_base E2)
      as (i2 & Hi2 & -> & Hfree2 & Hbelow2).
    f_equal. destruct (N.lt_trichotomy i1 i2) as [Hlt|[->|Hgt]]; [|done|].
    + destruct (Hbelow2 i1) as [x Hx]; [lia|].
      assert (is_Some (fs1 !! candidate i1)) as [y Hy]
        by (apply Hcand; [done|by eexists]).
      congruence.
    + destruct (Hbelow1 i2) as [x Hx]; [lia|].
      assert (is_Some (fs2 !! candidate i2)) as [y Hy]
        by (apply Hcand; [done|by eexists]).
      congruence.
  - assert (E2 : fs2 !! default_base = None).
    { apply eq_None_not_Some. intros H.
      apply (Hsame 0%nat) in H. change (output_name 0) with default_base in H.
      rewrite E1 in H. by destruct H. }
    by rewrite !next_available_filename_free.
Qed.

Lemma X11_choice_depends_on_output_names_witness :
  next_available_filename (<[default_base := py "old"]> input_only)
    default_base
  = next_available_filename {[default_base := []]} default_base.
Proof.
  apply X11_choice_depends_on_output_names. intros k.
  destruct k as [|k].
  - split; intros _; vm_compute; by eexists.
  - rewrite !lookup_insert_ne, lookup_singleton_ne.
    + unfold input_only. rewrite lookup_singleton_ne; [done|].
      intros H. symmetry in H. by apply output_name_ne_input in H.
    + intros H. by apply (output_name_inj 0 (S k)) in H.
    + intros H. by apply (output_name_inj 0 (S k)) in H.
Defined.

(** ** Nested blocks *)

Lemma node_ind_list (P : node -> Prop) :
  (forall s, P (NavigableString s)) ->
  (forall s, P (Comment s)) ->
  (forall name cl contents, Forall P contents -> P (Tag name cl contents)) ->
  forall n, P n.
Proof.
  intros Hstr Hcom Htag. fix IH 1. intros [s|s|name cl contents].
  - apply Hstr.
  - apply Hcom.
  - apply Htag.
    induction contents as [|c l IHl]; constructor; [apply IH|exact IHl].
Qed.

Lemma sublist_flat_map_elem {A B} (f : A -> list B) (x : A) (l : list A) :
  In x l -> sublist (f x) (flat_map f l).
Proof.
  induction l as [|y l IH]; [done|]. cbn [flat_map]. intros [->|Hx].
  - by apply sublist_inserts_r.
  - by apply sublist_inserts_l, IH.
Qed.

Lemma descendants_sublist (n c : node) :
  In c (descendants n) -> sublist (descendants c) (descendants n).
Proof.
  induction n as [s|s|name cl contents IH] using node_ind_list; [done..|].
  cbn [descendants]. intros Hc.
  apply in_flat_map in Hc as (k & Hk & Hc).
  etrans; [|apply (sublist_flat_map_elem _ k); exact Hk].
  destruct Hc as [->|Hc].
  - by apply sublist_cons.
  - apply sublist_cons. rewrite Forall_forall in IH.
    apply IH; [by apply list_elem_of_In|done].
Qed.

Lemma sublist_filter {A} (p : A -> bool) (l1 l2 : list A) :
  sublist l1 l2 -> sublist (List.filter p l1) (List.filter p l2).
Proof.
  induction 1 as [|x l1 l2 _ IH|x l1 l2 _ IH]; cbn [List.filter].
  - done.
  - destruct (p x); [by apply sublist_skip|done].
  - destruct (p x); [by apply sublist_cons|done].
Qed.

(** X12: the searches go through all descendants, so a player block
    nested in another one gets a row of its own, and its value cells are
    repeated, in the same order, in the row of the outer block. *)
Theorem X12_nested_block (soup outer inner : node) :
  In outer (find_all soup (py "div") (Some (py "st-content__item"))) ->
  In inner (find_all outer (py "div") (Some (py "st-content__item"))) ->
  In inner (find_all soup (py "div") (Some (py "st-content__item")))
  /\ sublist (stats inner) (stats outer).
Proof.
  unfold find_all. rewrite !filter_In. intros [Houter _] [Hinner Hmatch].
  split.
  - split; [|done].
    apply list_elem_of_In.
    apply (elem_of_sublist (descendants outer)).
    + by apply list_elem_of_In.
    + by apply descendants_sublist.
  - unfold stats, find_all. change (map ?f ?l) with (f <$> l).
    by apply fmap_sublist, sublist_filter, descendants_sublist.
Qed.

Lemma X12_nested_block_witness :
  rows (document
          [Tag (py "div") [py "st-content__item"]
             [element "div" ["value"] "1";
              Tag (py "div") [py "st-content__item"]
                [element "div" ["value"] "2"]]])
  = Some [[[]; []; py "1"; py "2"]; [[]; []; py "2"]]
  /\ sublist
       (stats (Tag (py "div") [py "st-content__item"]
                 [element "div" ["value"] "2"]))
       (stats (Tag (py "div") [py "st-content__item"]
                 [element "div" ["value"] "1";
                  Tag (py "div") [py "st-content__item"]
                    [element "div" ["value"] "2"]])).
Proof.
  split; [vm_compute; reflexivity|].
  eapply (X12_nested_block
            (document
               [Tag (py "div") [py "st-content__item"]
                  [element "div" ["value"] "1";
                   Tag (py "div") [py "st-content__item"]
                     [element "div" ["value"] "2"]]])).
  - vm_compute. left. reflexivity.
  - vm_compute. left. reflexivity.
Defined.

(** ** Lines of the file *)

Lemma readlines_line (s : str) :
  forall (cur rest : str),
    Forall (fun c => is_newline c = false) s ->
    readlines cur (s ++ CR :: LF :: rest)
    = (cur ++ s ++ [CR; LF]) :: readlines [] rest.
Proof.
  induction s as [|c s IH]; intros cur rest Hs.
  - done.
  - apply Forall_cons in Hs as [Hc Hs]. cbn [app readlines].
    unfold is_newline in Hc. apply orb_false_elim in Hc as [-> ->].
    rewrite IH by done. by rewrite <- app_assoc.
Qed.

Lemma escape_field_no_newline (f : str) :
  Forall (fun c => is_newline c = false) f ->
  Forall (fun c => is_newline c = false) (escape_field f).
Proof.
  unfold escape_field. induction 1 as [|c f Hc _ IH]; [done|].
  cbn [flat_map]. destruct (c =? quotechar); repeat constructor; done.
Qed.

Lemma join_append_no_newline (f : str) (quoted : bool) :
  Forall (fun c => is_newline c = false) f ->
  Forall (fun c => is_newline c = false) (join_append f quoted).
Proof.
  intros Hf. apply escape_field_no_newline in Hf. unfold join_append.
  destruct (quoted || existsb special f); [|done].
  constructor; [done|]. apply Forall_app. split; [done|by constructor].
Qed.

Lemma join_fields_no_newline (r : list str) :
  Forall (Forall (fun c => is_newline c = false)) r ->
  Forall (fun c => is_newline c = false) (join_fields r).
Proof.
  induction 1 as [|f r Hf Hr IH]; [done|].
  destruct r as [|g r]; [by apply join_append_no_newline|].
  change (join_fields (f :: g :: r))
    with (join_append f false ++ [delimiter] ++ join_fields (g :: r)).
  apply Forall_app. split; [by apply join_append_no_newline|].
  by constructor.
Qed.

Lemma readlines_writerow (r : list str) (rest : str) :
  Forall (Forall (fun c => is_newline c = false)) r ->
  readlines [] (writerow r ++ rest) = writerow r :: readlines [] rest.
Proof.
  intros Hr. unfold writerow, lineterminator. rewrite <- app_assoc.
  cbn [app]. apply (readlines_line _ []).
  destruct (bool_decide (r <> []) && bool_decide (join_fields r = [])).
  - by apply join_append_no_newline.
  - by apply join_fields_no_newline.
Qed.

(** X13: when no field holds a CR or an LF the file has one line per
    record: the header line and then exactly one line for each row, each
    being the text of that record. *)
Theorem X13_one_line_per_row (rs : list (list str)) :
  Forall (Forall (Forall (fun c => is_newline c = false))) rs ->
  readlines [] (csv_text rs) = writerow header :: (writerow <$> rs).
Proof.
  intros Hrs. unfold csv_text.
  rewrite readlines_writerow by (vm_compute; repeat constructor).
  f_equal. unfold writerows.
  induction Hrs as [|r rs Hr _ IH]; [done|].
  cbn [flat_map fmap list_fmap]. by rewrite readlines_writerow, IH.
Qed.

Lemma X13_one_line_per_row_witness :
  readlines [] (csv_text [[py "a"; py "b c"]; [[]; []]])
  = [writerow header; py "a,b c" ++ [CR; LF]; py "," ++ [CR; LF]].
Proof.
  rewrite X13_one_line_per_row; [reflexivity|].
  repeat constructor.
Defined.

(** A line feed inside a cell splits its record over two lines: the
    header, and two lines for the single row. *)
Example readlines_quoting_block :
  (fun t => length (readlines [] t))
    <$> (csv_text <$> rows (document [quoting_block]))
  = Some 3%nat.
Proof. vm_compute. reflexivity. Qed.

(** ** Encoding errors *)

Lemma escape_field_encodable (f : str) :
  forallb encodable f = true -> forallb encodable (escape_field f) = true.
Proof.
  unfold escape_field. induction f as [|c f IH]; [done|].
  cbn [forallb flat_map]. intros H. apply andb_prop in H as [Hc Hf].
  destruct (c =? quotechar); cbn [app forallb]; rewrite Hc, IH by done; done.
Qed.

Lemma join_append_encodable (f : str) (quoted : bool) :
  forallb encodable f = true ->
  forallb encodable (join_append f quoted) = true.
Proof.
  intros Hf. apply escape_field_encodable in Hf. unfold join_append.
  destruct (quoted || existsb special f); [|done].
  cbn [app forallb]. rewrite forallb_app, Hf. done.
Qed.

Lemma join_fields_encodable (r : list str) :
  Forall (fun f => forallb encodable f = true) r ->
  forallb encodable (join_fields r) = true.
Proof.
  induction 1 as [|f r Hf Hr IH]; [done|].
  destruct r as [|g r]; [by apply join_append_encodable|].
  change (join_fields (f :: g :: r))
    with (join_append f false ++ [delimiter] ++ join_fields (g :: r)).
  rewrite !forallb_app, join_append_encodable, IH by done. done.
Qed.

Lemma writerow_encodable (r : list str) :
  Forall (fun f => forallb encodable f = true) r ->
  forallb encodable (writerow r) = true.
Proof.
  intros Hr. unfold writerow. rewrite forallb_app.
  apply andb_true_intro. split; [|done].
  destruct (bool_decide (r <> []) && bool_decide (join_fields r = []));
    [done|by apply join_fields_encodable].
Qed.

(** Every character of a field is in the text of its record. *)
Lemma In_escape_field (c : char) (f : str) : In c f -> In c (escape_field f).
Proof.
  unfold escape_field. intros H. apply in_flat_map. exists c. split; [done|].
  destruct (c =? quotechar); cbn; auto.
Qed.

Lemma In_join_append (c : char) (f : str) (quoted : bool) :
  In c f -> In c (join_append f quoted).
Proof.
  intros H. apply In_escape_field in H. unfold join_append.
  destruct (quoted || existsb special f); [|exact H].
  cbn [app]. right. apply in_or_app. left. exact H.
Qed.

Lemma In_join_fields (c : char) (f : str) (r : list str) :
  In f r -> In c f -> In c (join_fields r).
Proof.
  intros Hf Hc. induction r as [|g r IH]; [done|].
  destruct r as [|g2 r].
  - cbn in Hf. destruct Hf as [->|Hf]; [|done]. cbn [join_fields].
    by apply In_join_append.
  - change (join_fields (g :: g2 :: r))
      with (join_append g false ++ [delimiter] ++ join_fields (g2 :: r)).
    apply in_or_app. destruct Hf as [->|Hf].
    + left. by apply In_join_append.
    + right. right. by apply IH.
Qed.

Lemma writerow_not_encodable (r : list str) :
  Exists (fun f => forallb encodable f = false) r ->
  forallb encodable (writerow r) = false.
Proof.
  intros Hr. apply Exists_exists in Hr as (f & Hf & Hbad).
  apply list_elem_of_In in Hf.
  destruct (forallb encodable (writerow r)) eqn:Hall; [|done].
  rewrite forallb_forall in Hall.
  assert (Hfall : forallb encodable f = true); [|congruence].
  apply forallb_forall. intros c Hc. apply Hall.
  unfold writerow. apply in_or_app. left.
  pose proof (In_join_fields c f r Hf Hc) as Hin.
  destruct (bool_decide (r <> []) && bool_decide (join_fields r = [])) eqn:E;
    [|done].
  apply andb_prop in E as [_ E]. apply bool_decide_eq_true in E.
  rewrite E in Hin. destruct Hin.
Qed.

Lemma written_good (good : list (list str)) (records : list str) :
  Forall (Forall (fun f => forallb encodable f = true)) good ->
  written ((writerow <$> good) ++ records)
  = (writerows good ++ (written records).1, (written records).2).
Proof.
  induction 1 as [|r good Hr _ IH].
  { cbn [fmap list_fmap app writerows flat_map]. by destruct (written records). }
  cbn [fmap list_fmap app written]. rewrite writerow_encodable by done.
  change (list_fmap _ _ writerow good) with (writerow <$> good).
  rewrite IH. unfold writerows. cbn [flat_map]. by rewrite <- app_assoc.
Qed.

Lemma header_encodable : Forall (fun f => forallb encodable f = true) header.
Proof.
  apply Forall_forall. intros f Hf. apply list_elem_of_In in Hf.
  assert (H : forallb (forallb encodable) header = true)
    by (vm_compute; reflexivity).
  rewrite forallb_forall in H. by apply H.
Qed.

(** X1: when a row holds a character UTF-8 cannot encode, the run dies
    in the writer, after it has created its file: the file is new, holds
    the header and the rows before the first such row, whole, and nothing
    after them; no line is printed and the files that were there are
    untouched. *)
Theorem X1_encode_error_leaves_partial_file
    (BeautifulSoup : str -> option node) (fs : gmap str str)
    (f : str) (soup : node) (good : list (list str)) (bad : list str)
    (rest : list (list str)) :
  fs !! py "match.html" = Some f ->
  BeautifulSoup f = Some soup ->
  rows soup = Some (good ++ bad :: rest) ->
  Forall (Forall (fun fld => forallb encodable fld = true)) good ->
  Exists (fun fld => forallb encodable fld = false) bad ->
  script_io BeautifulSoup fs
  = (<[next_available_filename fs default_base := csv_text good]> fs, None)
  /\ fs !! next_available_filename fs default_base = None
  /\ forall p c,
       fs !! p = Some c ->
       <[next_available_filename fs default_base := csv_text good]> fs !! p
       = Some c.
Proof.
  intros Hf Hsoup Hrows Hgood Hbad.
  pose proof (next_available_filename_fresh fs default_base) as Hfresh.
  split; [|split; [done|]].
  - unfold script_io. rewrite Hf, Hsoup, Hrows.
    change (writerow header :: (writerow <$> good ++ bad :: rest))
      with ((writerow <$> header :: good ++ bad :: rest)).
    change (header :: good ++ bad :: rest)
      with ((header :: good) ++ bad :: rest).
    rewrite fmap_app, written_good
      by (constructor; [apply header_encodable|done]).
    cbn [fmap list_fmap written]. rewrite writerow_not_encodable by done.
    cbn [fst snd]. by rewrite app_nil_r.
  - intros p c Hp. rewrite lookup_insert_ne; [done|]. congruence.
Qed.

Lemma X1_encode_error_leaves_partial_file_witness :
  script_io (fun _ => Some (document [short_block; cell_block [55296]]))
    input_only
  = (<[default_base := csv_text [[[]; []; py "5"]]]> input_only, None).
Proof.
  destruct (X1_encode_error_leaves_partial_file
              (fun _ => Some (document [short_block; cell_block [55296]]))
              input_only (py "<html>")
              (document [short_block; cell_block [55296]])
              [[[]; []; py "5"]] [[]; []; [55296]] [])
    as (Hrun & _ & _).
  - reflexivity.
  - reflexivity.
  - vm_compute. reflexivity.
  - repeat constructor.
  - right. right. left. reflexivity.
  - rewrite (next_available_filename_free input_only default_base) in Hrun
      by reflexivity.
    exact Hrun.
Defined.

(** X14: when every character of every field can be encoded, the run
    with its encoding errors is the run [script] describes: the whole
    CSV is written and the report printed. *)
Theorem X14_encodable_run_goes_through
    (BeautifulSoup : str -> option node) (fs : gmap str str)
    (f : str) (soup : node) (rs : list (list str)) :
  fs !! py "match.html" = Some f ->
  BeautifulSoup f = Some soup ->
  rows soup = Some rs ->
  Forall (Forall (fun fld => forallb encodable fld = true)) rs ->
  exists fs' msg,
    script BeautifulSoup fs = Some (fs', msg)
    /\ script_io BeautifulSoup fs = (fs', Some msg)
    /\ fs' !! next_available_filename fs default_base = Some (csv_text rs).
Proof.
  intros Hf Hsoup Hrows Hrs.
  destruct (script_runs _ _ _ _ Hf Hsoup) as (rs' & Hrs' & Hrun).
  assert (rs' = rs) as -> by congruence.
  eexists _, _. split; [exact Hrun|]. split; [|apply write_csv_lookup].
  unfold script_io. rewrite Hf, Hsoup, Hrows.
  rewrite <- (app_nil_r (writerow header :: (writerow <$> rs))).
  change (writerow header :: (writerow <$> rs))
    with (writerow <$> header :: rs).
  rewrite written_good by (constructor; [apply header_encodable|done]).
  cbn [written fst snd]. by rewrite app_nil_r.
Qed.

Lemma X14_encodable_run_goes_through_witness :
  exists fs' msg,
    script_io (fun _ => Some (document [short_block])) input_only
    = (fs', Some msg)
    /\ fs' !! py "match_stats.csv" = Some (csv_text [[[]; []; py "5"]]).
Proof.
  destruct (X14_encodable_run_goes_through
              (fun _ => Some (document [short_block])) input_only
              (py "<html>") (document [short_block]) [[[]; []; py "5"]])
    as (fs' & msg & _ & Hio & Hfile).
  - reflexivity.
  - reflexivity.
  - vm_compute. reflexivity.
  - repeat constructor.
  - exists fs', msg. split; [exact Hio|exact Hfile].
Defined.

(** ** Reading the file back *)



(** *** A cell longer than the limit *)











(** What the sample with the awkward cells looks like on disk: the three
    cells are quoted and the quote character inside is doubled. *)
Example csv_text_quoting_block :
  csv_text <$> rows (document [quoting_block])
  = Some (writerow header
          ++ py ",," ++ [34] ++ py "1,5" ++ [34]
          ++ py "," ++ [34] ++ py "12" ++ [34; 34] ++ py " tall" ++ [34]
          ++ py "," ++ [34] ++ py "up" ++ [10] ++ py "down" ++ [34]
          ++ [CR; LF]).
Proof. vm_compute. reflexivity. Qed.
